(** * Watson: the store, its project tree, the session and the sync

    A shallow embedding of [watson/watson.py] (class [Watson]) and the
    properties of its data model: the timestamp codec, the project tree
    addressed by '/'-separated paths, the running session, the persisted
    document, the flattened list of frames and the push to the remote
    server.

    The tree is read as a tree of values: no dict is shared between two
    projects, as in every tree read from a file or grown by [project].
    Where the identity of an object matters, the objects are in a store and
    named by their address: the frame dicts for [push], which updates dicts
    in place, and the projects for the reference [project] returns.  The
    clock ([arrow.now()]), the file, the JSON decoder, the configuration
    and the server are arguments. *)

From Stdlib Require Import ZArith List String Ascii Permutation Sorted Lia.
From stdpp Require Import gmap strings list fin_maps.
Import ListNotations.

Local Open Scope string_scope.
Local Open Scope list_scope.

(** ** Time values

    The [arrow] library is not part of the repository.  An [Arrow] object is
    an instant with microsecond resolution together with the offset of its
    time zone; [Arrow.timestamp] is the number of whole seconds since the
    Unix epoch (the microseconds are dropped, whatever the zone), and
    [Arrow.utcfromtimestamp] builds the UTC instant of a number of seconds.
    The range limits of [datetime] are left out: instants are unbounded. *)

Record Arrow : Type := MkArrow {
  micros : Z;       (* microseconds since 1970-01-01T00:00:00 UTC *)
  utcoffset : Z     (* offset of the zone the instant is shown in, seconds *)
}.

Definition timestamp (a : Arrow) : Z := (micros a / 1000000)%Z.

Definition utcfromtimestamp (n : Z) : Arrow :=
  {| micros := n * 1000000; utcoffset := 0 |}.

(** Comparison of two aware instants ([Arrow.__lt__]): by the instant. *)
Definition arrow_ltb (a b : Arrow) : bool := (micros a <? micros b)%Z.

(** A date handed to the store is an [Arrow] or a number of seconds. *)
Inductive date : Type :=
  | DArrow (a : Arrow)
  | DInt (n : Z).

(** [Watson._parse_date] *)
Definition _parse_date (d : Z) : Arrow := utcfromtimestamp d.

(** [Watson._format_date]: a value that is not an [Arrow] goes through
    [arrow.get], which reads a number as a timestamp. *)
Definition _format_date (d : date) : Z :=
  let d := match d with
           | DArrow a => a
           | DInt n => utcfromtimestamp n
           end in
  timestamp d.

(** ** Python values and dictionaries *)

Inductive pyval : Type :=
  | PNone
  | PInt (n : Z)
  | PStr (s : string)
  | PArrow (a : Arrow)
  | PList (l : list string).

Abbreviation pydict := (gmap string pyval).

Definition is_none (v : pyval) : bool :=
  match v with PNone => true | _ => false end.

Inductive WatsonError : Type :=
  | AlreadyStarted (project : string)   (* "Project {} is already started." *)
  | NoProjectGiven                      (* "No project given." *)
  | NoProjectStarted                    (* "No project started." *)
  | InvalidWatsonFile                   (* "Invalid Watson file {}: {}" *)
  | MissingConfig                       (* "You must specify a remote URL ..." *)
  | UnreachableServer                   (* "Unable to reach the server." *)
  | RemoteError (status : Z).           (* "An error occured with the remote server: {}" *)

Inductive exn : Type :=
  | EWatson (e : WatsonError)
  | KeyError (k : string)
  | TypeError
  | AttributeError
  | InvalidAddress.   (* an address with no object: no Python run has one *)

Inductive result (A : Type) : Type :=
  | Ok (a : A)
  | Raise (e : exn).
Arguments Ok {A} a.
Arguments Raise {A} e.

(** The monad of computations that may raise; [x ← m; k] is its bind. *)
#[global] Instance result_ret : MRet result := fun A a => Ok a.
#[global] Instance result_bind : MBind result := fun A B k m =>
  match m with
  | Ok a => k a
  | Raise e => Raise e
  end.

(** [d[k]]: a missing key raises [KeyError]. *)
Definition getitem (d : pydict) (k : string) : result pyval :=
  match d !! k with
  | Some v => Ok v
  | None => Raise (KeyError k)
  end.

(** [d.get(k)] *)
Definition dict_get (d : pydict) (k : string) : pyval :=
  default PNone (d !! k).

(** ** Strings: [str.split] with a separator *)

Fixpoint split (sep : ascii) (s : string) : list string :=
  match s with
  | EmptyString => [EmptyString]
  | String c rest =>
      if Ascii.eqb c sep then EmptyString :: split sep rest
      else match split sep rest with
           | hd :: tl => String c hd :: tl
           | [] => [String c EmptyString]
           end
  end.

Definition slash : ascii := "/"%char.

(** The path a list of segments spells: the segments joined by '/'. *)
Fixpoint join_path (names : list string) : string :=
  match names with
  | [] => ""
  | [name] => name
  | name :: rest => name +:+ "/" +:+ join_path rest
  end.

(** ** [sorted]: a stable sort, the keys computed first *)

Section Sorted.
Context {A K : Type}.
Variable ltb : K -> K -> bool.

(** [x] goes before the first element whose key is not below its own:
    it came first in the input. *)
Fixpoint insert_sorted (x : K * A) (l : list (K * A)) : list (K * A) :=
  match l with
  | [] => [x]
  | y :: l' =>
      if ltb (fst y) (fst x) then y :: insert_sorted x l'
      else x :: y :: l'
  end.

Fixpoint sort_pairs (l : list (K * A)) : list (K * A) :=
  match l with
  | [] => []
  | x :: l' => insert_sorted x (sort_pairs l')
  end.

Definition sorted (key : A -> result K) (l : list A) : result (list A) :=
  keys ← mapM key l;
  Ok (map snd (sort_pairs (combine keys l))).
End Sorted.

(** [str.__lt__]: the order of the code points. *)
Definition str_ltb (a b : string) : bool := String.ltb a b.

(** ** The project tree

    A project is a dict [{'frames': [...], 'projects': {...}}].  The dict of
    sub-projects keeps its insertion order, which [items()] follows: it is a
    list of bindings.  The node is generic in what a frame record is: the
    record itself, or its address in the store of objects [push] runs
    on. *)

#[local] Unset Elimination Schemes.
Inductive node (F : Type) : Type :=
  Node (frames : list F) (projects : list (string * node F)).
#[local] Set Elimination Schemes.
Arguments Node {F} frames projects.

Definition frames_of {F} (n : node F) : list F :=
  match n with Node fs _ => fs end.
Definition projects_of {F} (n : node F) : list (string * node F) :=
  match n with Node _ ps => ps end.

Section NodeInd.
Context {F : Type} (P : node F -> Prop).
Hypothesis HNode : forall fs ps,
  Forall (fun p => P (snd p)) ps -> P (Node fs ps).

Fixpoint node_ind (n : node F) : P n :=
  match n with
  | Node fs ps =>
      HNode fs ps
        ((fix all (ps : list (string * node F)) : Forall (fun p => P (snd p)) ps :=
            match ps with
            | [] => @List.Forall_nil _ (fun p => P (snd p))
            | (name, child) :: ps' =>
                @List.Forall_cons _ (fun p => P (snd p)) (name, child) ps' (node_ind child) (all ps')
            end) ps)
  end.
End NodeInd.

(** Ordered dictionaries with string keys. *)
Section Odict.
Context {V : Type}.

(** [d[k]] when [k in d] *)
Fixpoint od_get (k : string) (d : list (string * V)) : option V :=
  match d with
  | [] => None
  | (k', v) :: d' => if String.eqb k k' then Some v else od_get k d'
  end.

(** [d[k] = v]: the value of an existing key is replaced in place, a new
    key goes to the end. *)
Fixpoint od_set (k : string) (v : V) (d : list (string * V)) : list (string * V) :=
  match d with
  | [] => [(k, v)]
  | (k', v') :: d' =>
      if String.eqb k k' then (k', v) :: d' else (k', v') :: od_set k v d'
  end.
End Odict.

(** A stored frame: [{'start': int, 'stop': int}], with an optional
    ['message'] and, once pushed, an ['id']. *)
Record raw_frame : Type := MkRaw {
  rf_start : Z;
  rf_stop : Z;
  rf_message : option string;
  rf_id : option pyval
}.

Definition empty_project {F} : node F := Node [] [].

(** [Watson.project]: the walk from the tree down the names, a missing name
    being added on the way.  The dicts are updated in place in the source;
    here the walk returns the tree it leaves together with the project it
    reaches.  What the caller then does to the project it was handed (as
    [add_frame] does) is [k]. *)
Fixpoint project_walk {F} (k : node F -> node F) (names : list string)
    (project : node F) : node F * node F :=
  match names with
  | [] => (k project, k project)
  | name :: rest =>
      let child := match od_get name (projects_of project) with
                   | Some child => child
                   | None => empty_project
                   end in
      let '(child', reached) := project_walk k rest child in
      (Node (frames_of project) (od_set name child' (projects_of project)),
       reached)
  end.

(** The project a list of names leads to, nothing being created. *)
Fixpoint node_at {F} (names : list string) (project : node F) : option (node F) :=
  match names with
  | [] => Some project
  | name :: rest =>
      match od_get name (projects_of project) with
      | Some child => node_at rest child
      | None => None
      end
  end.

(** [get_projects] of [Watson.projects] *)
Fixpoint get_projects {F} (project : node F) (parent : string) : list string :=
  flat_map (fun '(name, child) =>
              let name := parent +:+ name in
              name :: get_projects child (name +:+ "/"))
           (projects_of project).

(** The dict a flattened frame is. *)
Definition flat_frame (project : string) (raw : raw_frame) : pydict :=
  {[ "project" := PStr project;
     "id" := default PNone (rf_id raw);
     "start" := PArrow (_parse_date (rf_start raw));
     "stop" := PArrow (_parse_date (rf_stop raw)) ]}.

(** [get_frames] of [Watson.frames] *)
Fixpoint get_frames (parent : node raw_frame) (ancestors : string) : list pydict :=
  flat_map (fun '(name, project) =>
              map (flat_frame (ancestors +:+ name)) (frames_of project)
              ++ get_frames project (ancestors +:+ name +:+ "/"))
           (projects_of parent).

(** The key of the sort of [Watson.frames]: [e['start']], an [Arrow]. *)
Definition start_key (e : pydict) : result Arrow :=
  v ← getitem e "start";
  match v with
  | PArrow a => Ok a
  | _ => Raise TypeError
  end.

(** ** The store *)

Record session : Type := MkSession {
  s_project : string;
  s_start : date
}.

Record Watson : Type := MkWatson {
  tree : list (string * node raw_frame);   (* [self.tree['projects']] *)
  _current : option session
}.

(** [self.tree], the dict [{'projects': ...}], seen as the root project. *)
Definition root (w : Watson) : node raw_frame := Node [] (tree w).

Definition pyval_of_date (d : date) : pyval :=
  match d with
  | DArrow a => PArrow a
  | DInt n => PInt n
  end.

(** [dict(self._current)] *)
Definition session_dict (s : session) : pydict :=
  {[ "project" := PStr (s_project s);
     "start" := pyval_of_date (s_start s) ]}.

(** The property [current]: a copy of [_current], or [None]. *)
Definition current (w : Watson) : option pydict :=
  match _current w with
  | None => None
  | Some s => Some (session_dict s)
  end.

Definition is_started (w : Watson) : bool :=
  match current w with
  | Some _ => true
  | None => false
  end.

(** The value given to the setter of [current]: [None] or a dict which may
    hold ['project'] and ['start']. *)
Record current_doc : Type := MkCurrentDoc {
  cd_project : option string;
  cd_start : option date
}.

(** The setter of [current].  [now] is [arrow.now()].  The branch for a
    [start] that is a [str] is outside the typed documents: a start is an
    [Arrow] or a number. *)
Definition set_current (now : Arrow) (value : option current_doc) (w : Watson) : Watson :=
  match value with
  | None => {| tree := tree w; _current := None |}
  | Some v =>
      match cd_project v with
      | None => {| tree := tree w; _current := None |}
      | Some p =>
          let start := default (DArrow now) (cd_start v) in
          {| tree := tree w;
             _current := Some {| s_project := p; s_start := start |} |}
      end
  end.

(** [Watson.project] *)
Definition project (name : string) (w : Watson) : Watson * node raw_frame :=
  let '(t, reached) := project_walk (fun n => n) (split slash name) (root w) in
  ({| tree := projects_of t; _current := _current w |}, reached).

(** [Watson.projects] *)
Definition projects (w : Watson) : result (list string) :=
  sorted str_ltb (fun s => Ok s) (get_projects (root w) "").

(** The frame [add_frame] builds: the dates formatted, and the message
    when there is one and it is not empty. *)
Definition frame_of (start stop : date) (message : option string) : raw_frame :=
  {| rf_start := _format_date start;
     rf_stop := _format_date stop;
     rf_message := match message with
                   | Some (String _ _ as m) => Some m
                   | _ => None
                   end;
     rf_id := None |}.

(** [project['frames'].append(frame)] *)
Definition append_frame {F} (frame : F) (n : node F) : node F :=
  Node (frames_of n ++ [frame]) (projects_of n).

(** [Watson.add_frame] *)
Definition add_frame (project : string) (start stop : date)
    (message : option string) (w : Watson) : Watson :=
  let frame := frame_of start stop message in
  let '(t, _) := project_walk (append_frame frame) (split slash project) (root w) in
  {| tree := projects_of t; _current := _current w |}.

(** [Watson.frames] *)
Definition frames (w : Watson) : result (list pydict) :=
  sorted arrow_ltb start_key (get_frames (root w) "").

(** [Watson.start]; [project] is [None] or a string, [now] is
    [arrow.now()].  [is_started] holds when [_current] is set, and
    [self.current['project']] is then its project. *)
Definition start (now : Arrow) (project : option string) (w : Watson)
    : result (Watson * option pydict) :=
  match _current w with
  | Some s => Raise (EWatson (AlreadyStarted (s_project s)))
  | None =>
      match project with
      | None | Some EmptyString => Raise (EWatson NoProjectGiven)
      | Some p =>
          let w' := set_current now
                      (Some {| cd_project := Some p; cd_start := None |}) w in
          Ok (w', current w')
      end
  end.

(** [Watson.stop]; it is started when [_current] is set, and [old] is the
    copy [self.current] made before the frame is added. *)
Definition stop (now : Arrow) (message : option string) (w : Watson)
    : result (Watson * option pydict) :=
  match _current w with
  | None => Raise (EWatson NoProjectStarted)
  | Some s =>
      let old := current w in
      let w1 := add_frame (s_project s) (s_start s) (DArrow now) message w in
      let w2 := set_current now None w1 in
      Ok (w2, old)
  end.

(** [Watson.cancel]; it is started when [_current] is set. *)
Definition cancel (now : Arrow) (w : Watson) : result (Watson * option pydict) :=
  match _current w with
  | None => Raise (EWatson NoProjectStarted)
  | Some s =>
      let old_current := current w in
      Ok (set_current now None w, old_current)
  end.

(** ** The persisted document *)

(** What [json.load] gives for a Watson file, and what [dump] builds: a dict
    which may hold ['projects'] and ['current']. *)
Record content : Type := MkContent {
  c_projects : option (list (string * node raw_frame));
  c_current : option current_doc
}.

(** A parsed JSON document: a dict, or another value (a list, a number,
    ...), which has no [get]. *)
Inductive document : Type :=
  | DocDict (c : content)
  | DocOther.

Definition empty_content : content :=
  {| c_projects := None; c_current := None |}.

(** [Watson.dump] *)
Definition dump (w : Watson) : content :=
  let content := {| c_projects := Some (tree w); c_current := None |} in
  match _current w with
  | Some current =>
      {| c_projects := c_projects content;
         c_current :=
           Some {| cd_project := Some (s_project current);
                   cd_start := Some (DInt (_format_date (s_start current))) |} |}
  | None => content
  end.

(** [Watson._load] on a given document. *)
Definition _load (now : Arrow) (doc : document) : result Watson :=
  match doc with
  | DocOther => Raise AttributeError
  | DocDict content =>
      let w := {| tree := default [] (c_projects content); _current := None |} in
      Ok (set_current now (c_current content) w)
  end.

Section WatsonFile.
(** [json.load] on the text of a file; [None] is its [ValueError]. *)
Variable json_load : string -> option document.

(** [Watson._load_watson_file].  The file is [None] when [open] raises
    [IOError]; [os.path.getsize] is the length of its text.  The [else] of
    the [try] is never reached: the body returns or raises. *)
Definition _load_watson_file (file : option string) : result document :=
  match file with
  | None => Ok (DocDict empty_content)
  | Some text =>
      match json_load text with
      | Some doc => Ok doc
      | None =>
          if Nat.eqb (String.length text) 0 then Ok (DocDict empty_content)
          else Raise (EWatson InvalidWatsonFile)
      end
  end.

(** [Watson()]: [_load] with no content given. *)
Definition load_file (now : Arrow) (file : option string) : result Watson :=
  doc ← _load_watson_file file;
  _load now doc.
End WatsonFile.

(** ** [str] of an [Arrow]: the ISO 8601 form of its local date and time

    As [datetime.isoformat] prints it for the years 1 to 9999. *)

Definition digit (n : Z) : ascii :=
  ascii_of_nat (48 + Z.to_nat (n mod 10)).

(** The [width] last decimal digits of [n], zero padded. *)
Fixpoint digits (width : nat) (n : Z) : string :=
  match width with
  | O => ""
  | S w => digits w (n / 10) +:+ String (digit n) ""
  end.

(** Year, month and day of a number of days since 1970-01-01. *)
Definition civil_from_days (days : Z) : Z * Z * Z :=
  let z := (days + 719468)%Z in
  let era := (z / 146097)%Z in
  let doe := (z - era * 146097)%Z in
  let yoe := ((doe - doe / 1460 + doe / 36524 - doe / 146096) / 365)%Z in
  let doy := (doe - (365 * yoe + yoe / 4 - yoe / 100))%Z in
  let mp := ((5 * doy + 2) / 153)%Z in
  let d := (doy - (153 * mp + 2) / 5 + 1)%Z in
  let m := (if mp <? 10 then mp + 3 else mp - 9)%Z in
  let y := (yoe + era * 400 + (if m <=? 2 then 1 else 0))%Z in
  (y, m, d).

Definition isoformat (a : Arrow) : string :=
  let us := (micros a + utcoffset a * 1000000)%Z in
  let secs := (us / 1000000)%Z in
  let frac := (us mod 1000000)%Z in
  let '(y, m, d) := civil_from_days (secs / 86400) in
  let sod := (secs mod 86400)%Z in
  let off := Z.abs (utcoffset a) in
  digits 4 y +:+ "-" +:+ digits 2 m +:+ "-" +:+ digits 2 d +:+ "T"
  +:+ digits 2 (sod / 3600) +:+ ":" +:+ digits 2 (sod / 60 mod 60) +:+ ":"
  +:+ digits 2 (sod mod 60)
  +:+ (if (frac =? 0)%Z then "" else "." +:+ digits 6 frac)
  +:+ (if (utcoffset a <? 0)%Z then "-" else "+")
  +:+ digits 2 (off / 3600) +:+ ":" +:+ digits 2 (off / 60 mod 60).

(** ** The object store and [Watson.push]

    [push] updates dicts in place, so the dicts live in a store of objects
    and are named by their address.  A project node holds the addresses of
    its frame records; a dict literal of the source allocates a fresh
    object. *)

Abbreviation loc := nat.

(** The typed reading of a stored frame record. *)
Definition as_int (v : pyval) : result Z :=
  match v with
  | PInt n => Ok n
  | _ => Raise TypeError
  end.

Definition as_arrow (v : pyval) : result Arrow :=
  match v with
  | PArrow a => Ok a
  | _ => Raise TypeError
  end.

Definition as_str (v : pyval) : result string :=
  match v with
  | PStr s => Ok s
  | _ => Raise AttributeError
  end.

Definition raw_of_dict (d : pydict) : result raw_frame :=
  start ← getitem d "start";
  start ← as_int start;
  stop ← getitem d "stop";
  stop ← as_int stop;
  Ok {| rf_start := start;
        rf_stop := stop;
        rf_message := match d !! "message" with
                      | Some (PStr m) => Some m
                      | _ => None
                      end;
        rf_id := d !! "id" |}.

(** The dict a frame record is. *)
Definition dict_of_raw (r : raw_frame) : pydict :=
  let d : pydict := {[ "start" := PInt (rf_start r); "stop" := PInt (rf_stop r) ]} in
  let d := match rf_message r with
           | Some m => <[ "message" := PStr m ]> d
           | None => d
           end in
  match rf_id r with
  | Some i => <[ "id" := i ]> d
  | None => d
  end.

Definition raw_at (h : list pydict) (l : loc) : result raw_frame :=
  match h !! l with
  | Some d => raw_of_dict d
  | None => Raise InvalidAddress
  end.

(** The tree of frame records a tree of addresses stands for. *)
Fixpoint deref (h : list pydict) (n : node loc) : result (node raw_frame) :=
  fs ← mapM (raw_at h) (frames_of n);
  ps ← mapM (fun '(name, child) => c ← deref h child; Ok (name, c))
            (projects_of n);
  Ok (Node fs ps).

(** The requests [push] sends: [requests.post] and [requests.put] to
    [dest] with the ['Authorization'] header and the list under ['frames']
    of the JSON body. *)
Inductive request : Type :=
  | Post (dest : string) (authorization : string) (data : list pydict)
  | Put (dest : string) (authorization : string) (data : list pydict).

Record response : Type := MkResponse {
  status_code : Z;
  json : list pyval
}.

(** The server: its answer to a request, [None] when the connection fails
    ([requests.ConnectionError]). *)
Definition remote : Type := request -> option response.

Record world : Type := MkWorld {
  heap : list pydict;
  sent : list request
}.

(** Computations on the world that may raise. *)
Definition M (A : Type) : Type := world -> result A * world.

#[global] Instance M_ret : MRet M := fun A a w => (Ok a, w).
#[global] Instance M_bind : MBind M := fun A B k m w =>
  match m w with
  | (Ok a, w') => k a w'
  | (Raise e, w') => (Raise e, w')
  end.

Definition raise {A} (e : exn) : M A := fun w => (Raise e, w).

Definition lift {A} (r : result A) : M A := fun w => (r, w).

(** A dict literal: a fresh object. *)
Definition new_dict (d : pydict) : M loc := fun w =>
  (Ok (length (heap w)), {| heap := heap w ++ [d]; sent := sent w |}).

Definition read (l : loc) : M pydict := fun w =>
  match heap w !! l with
  | Some d => (Ok d, w)
  | None => (Raise InvalidAddress, w)
  end.

(** [frame[k] = v] *)
Definition setitem (l : loc) (k : string) (v : pyval) : M unit := fun w =>
  match heap w !! l with
  | Some d => (Ok tt, {| heap := <[ l := <[ k := v ]> d ]> (heap w); sent := sent w |})
  | None => (Raise InvalidAddress, w)
  end.

(** [del frame[k]] *)
Definition delitem (l : loc) (k : string) : M unit := fun w =>
  match heap w !! l with
  | Some d =>
      match d !! k with
      | Some _ => (Ok tt, {| heap := <[ l := delete k d ]> (heap w); sent := sent w |})
      | None => (Raise (KeyError k), w)
      end
  | None => (Raise InvalidAddress, w)
  end.

Definition send (server : remote) (req : request) : M response := fun w =>
  let w' := {| heap := heap w; sent := sent w ++ [req] |} in
  match server req with
  | Some r => (Ok r, w')
  | None => (Raise (EWatson UnreachableServer), w')
  end.

Fixpoint filterM {A} (p : A -> M bool) (l : list A) : M (list A) :=
  match l with
  | [] => mret []
  | x :: l' =>
      b ← p x;
      r ← filterM p l';
      mret (if (b : bool) then x :: r else r)
  end.

Fixpoint forM_ {A} (l : list A) (body : A -> M unit) : M unit :=
  match l with
  | [] => mret tt
  | x :: l' => _ ← body x; forM_ l' body
  end.

(** [self.frames()] on the tree of addresses: it reads the records. *)
Definition frames_h (tree : list (string * node loc)) : M (list pydict) := fun w =>
  (t ← deref (heap w) (Node [] tree);
   frames {| tree := projects_of t; _current := None |}, w).

(** The dict the generator of [push] builds from a frame of [frames()]. *)
Definition push_item (f : pydict) : result pydict :=
  start ← getitem f "start";
  start ← as_arrow start;
  stop ← getitem f "stop";
  stop ← as_arrow stop;
  project ← getitem f "project";
  project ← as_str project;
  Ok ({[ "id" := dict_get f "id";
         "start" := PStr (isoformat start);
         "stop" := PStr (isoformat stop);
         "project" := PList (split slash project) ]} : pydict).

Definition id_is_none (l : loc) : M bool :=
  f ← read l;
  v ← lift (getitem f "id");
  mret (is_none v).

(** The body of the loop of [push] over the ids the server answers. *)
Definition assign_id : loc * pyval -> M unit :=
  fun '(frame, _id) => _ ← setitem frame "id" _id; delitem frame "project".

(** The block [if new_frames:] of [push]. *)
Definition create_frames (server : remote) (dest authorization : string)
    (new_frames : list loc) : M unit :=
  match new_frames with
  | [] => mret tt
  | _ =>
      data ← mapM read new_frames;
      response ← send server (Post dest authorization data);
      if negb (status_code response =? 201)%Z
      then raise (EWatson (RemoteError (status_code response)))
      else
        let ids := json response in
        forM_ (zip new_frames ids) assign_id
  end.

(** The block [if existing_frames:] of [push]. *)
Definition update_frames (server : remote) (dest authorization : string)
    (existing_frames : list loc) : M unit :=
  match existing_frames with
  | [] => mret tt
  | _ =>
      data ← mapM read existing_frames;
      response ← send server (Put dest authorization data);
      if negb (status_code response =? 200)%Z
      then raise (EWatson (RemoteError (status_code response)))
      else mret tt
  end.

(** [Watson.push].  [config] is what [self.config] finds: the url and the
    token of the section [crick], when both are there. *)
Definition push (config : option (string * string)) (server : remote)
    (force : bool) (tree : list (string * node loc)) : M (list loc) :=
  config ← (match config with
            | Some c => mret c
            | None => raise (EWatson MissingConfig)
            end : M (string * string));
  let dest := fst config +:+ "/frames/" in
  let token := snd config in
  fs ← frames_h tree;
  frames ← mapM (fun f => item ← lift (push_item f); new_dict item) fs;
  new_frames ← filterM id_is_none frames;
  existing_frames ← (if force
                     then filterM (fun l => b ← id_is_none l; mret (negb b)) frames
                     else mret [] : M (list loc));
  let authorization := "Token " +:+ token in
  _ ← create_frames server dest authorization new_frames;
  _ ← update_frames server dest authorization existing_frames;
  mret new_frames.

(** ** Projects as objects

    [Watson.project] returns a reference into the tree.  Here the projects
    are objects named by their address: each holds its frames and the dict
    from the names of its sub-projects to their addresses, and the dict of
    the tree itself is [top]. *)

Record project_obj : Type := MkProjectObj {
  po_frames : list raw_frame;
  po_projects : list (string * loc)
}.

Record forest : Type := MkForest {
  objects : list project_obj;
  top : list (string * loc)      (* [self.tree['projects']] *)
}.

(** [project['projects']], [project] being the tree ([None]) or a project. *)
Definition projects_at (project : option loc) (st : forest) : list (string * loc) :=
  match project with
  | None => top st
  | Some a =>
      match objects st !! a with
      | Some o => po_projects o
      | None => []
      end
  end.

Definition set_projects_at (project : option loc) (ps : list (string * loc))
    (st : forest) : forest :=
  match project with
  | None => {| objects := objects st; top := ps |}
  | Some a =>
      {| objects := alter (fun o => {| po_frames := po_frames o; po_projects := ps |})
                          a (objects st);
         top := top st |}
  end.

(** [project['projects'][name] = {'frames': [], 'projects': {}}]: a new
    object, bound to [name] in the dict of [project]. *)
Definition add_child (project : option loc) (name : string) (st : forest) : forest :=
  let child := length (objects st) in
  let st := {| objects := objects st ++ [ {| po_frames := []; po_projects := [] |} ];
               top := top st |} in
  set_projects_at project (od_set name child (projects_at project st)) st.

(** The loop of [Watson.project] on the objects: it returns the reference
    it ends on. *)
Fixpoint project_ref (names : list string) (project : option loc) (st : forest)
    : option loc * forest :=
  match names with
  | [] => (project, st)
  | name :: rest =>
      match od_get name (projects_at project st) with
      | Some child => project_ref rest (Some child) st
      | None =>
          project_ref rest (Some (length (objects st))) (add_child project name st)
      end
  end.

(** A reference is the tree or the address of an object. *)
Definition valid_ref (project : option loc) (st : forest) : Prop :=
  match project with
  | None => True
  | Some a => a < length (objects st)
  end.

(** Every address bound in a dict is the address of an object. *)
Definition closed (st : forest) : Prop :=
  forall project name a,
    od_get name (projects_at project st) = Some a -> a < length (objects st).

(** No object and no binding is lost from [st] to [st1]. *)
Definition grows (st st1 : forest) : Prop :=
  length (objects st) <= length (objects st1)
  /\ forall project name a,
       od_get name (projects_at project st) = Some a ->
       od_get name (projects_at project st1) = Some a.

(** ** Observations the properties are stated with *)

(** Two sessions that agree to the second. *)
Definition same_session (a b : option session) : Prop :=
  match a, b with
  | None, None => True
  | Some s, Some s' =>
      s_project s' = s_project s
      /\ _format_date (s_start s') = _format_date (s_start s)
  | _, _ => False
  end.

(** No element is followed by one strictly below it. *)
Definition in_order {A K} (ltb : K -> K -> bool) (x y : K * A) : Prop :=
  ltb (fst y) (fst x) = false.

(** For keys ordered by an integer rank. *)
Definition rank_le {A K} (rank : K -> Z) (x y : K * A) : Prop :=
  (rank (fst x) <= rank (fst y))%Z.

(** An element with its key, as the sort pairs them. *)
Definition keyed {A K} (k : A -> K) (x : A) : K * A := (k x, x).

(** The frames of the project a list of names leads to; none when there is
    no such project. *)
Definition frames_at {F} (names : list string) (n : node F) : list F :=
  match node_at names n with
  | Some m => frames_of m
  | None => []
  end.

(** [reaches n names m]: [m] is the project found from [n] by following
    [names] through the dicts of sub-projects. *)
Inductive reaches {F} : node F -> list string -> node F -> Prop :=
  | reaches_here n : reaches n [] n
  | reaches_step n name child names m :
      In (name, child) (projects_of n) ->
      reaches child names m ->
      reaches n (name :: names) m.

(** The instant a flattened frame starts at, and its microseconds. *)
Definition start_arrow (e : pydict) : Arrow :=
  match e !! "start" with
  | Some (PArrow a) => a
  | _ => utcfromtimestamp 0
  end.

Definition start_micros (e : pydict) : Z := micros (start_arrow e).

(** The keys of the dicts [frames] and [push] build. *)
Definition flat_keys : gset string := {[ "project"; "id"; "start"; "stop" ]}.

(** The tree with the messages of its frames taken away. *)
Definition without_message (r : raw_frame) : raw_frame :=
  {| rf_start := rf_start r; rf_stop := rf_stop r;
     rf_message := None; rf_id := rf_id r |}.

Fixpoint without_messages (n : node raw_frame) : node raw_frame :=
  Node (map without_message (frames_of n))
       (map (fun '(name, child) => (name, without_messages child)) (projects_of n)).

(** A dict at an address has an ['id'] that is [None]. *)
Definition none_at (h : list pydict) (l : loc) : bool :=
  match h !! l with
  | Some d => is_none (dict_get d "id")
  | None => false
  end.

Definition id_is_none_in (d : pydict) : bool := is_none (dict_get d "id").

(** The dict [push] builds from a dict of [frames]: [push_item] on a dict
    with an [Arrow] start and stop and a [str] project. *)
Definition stop_arrow (e : pydict) : Arrow :=
  match e !! "stop" with
  | Some (PArrow a) => a
  | _ => utcfromtimestamp 0
  end.

Definition project_name (e : pydict) : string :=
  match e !! "project" with
  | Some (PStr s) => s
  | _ => ""
  end.

Definition item_of (f : pydict) : pydict :=
  {[ "id" := dict_get f "id";
     "start" := PStr (isoformat (start_arrow f));
     "stop" := PStr (isoformat (stop_arrow f));
     "project" := PList (split slash (project_name f)) ]}.

(** The same dict, from the project and the record of a stored frame. *)
Definition frame_item (project : string) (raw : raw_frame) : pydict :=
  {[ "id" := default PNone (rf_id raw);
     "start" := PStr (isoformat (_parse_date (rf_start raw)));
     "stop" := PStr (isoformat (_parse_date (rf_stop raw)));
     "project" := PList (split slash project) ]}.

(** What a request comes to for [push]: nothing when the server answers
    with the status expected, an error otherwise. *)
Definition outcome (server : remote) (req : request) (expected : Z) : result unit :=
  match server req with
  | None => Raise (EWatson UnreachableServer)
  | Some r =>
      if negb (status_code r =? expected)%Z
      then Raise (EWatson (RemoteError (status_code r)))
      else Ok tt
  end.

(** A batch is sent when it is not empty. *)
Definition batch_outcome (server : remote) (mk : list pydict -> request)
    (expected : Z) (data : list pydict) : result unit :=
  match data with
  | [] => Ok tt
  | _ => outcome server (mk data) expected
  end.

Definition batch_sent (mk : list pydict -> request) (data : list pydict) : list request :=
  match data with
  | [] => []
  | _ => [mk data]
  end.

Definition has_id (h : list pydict) (l : loc) : Prop :=
  exists d v, h !! l = Some d /\ d !! "id" = Some v.

Definition has_project (h : list pydict) (l : loc) : Prop :=
  exists d, h !! l = Some d /\ is_Some (d !! "project").

(** ** Stores, documents and servers the properties are run on *)

Definition empty_watson : Watson := {| tree := []; _current := None |}.

Definition empty_forest : forest := {| objects := []; top := [] |}.

(** The objects of the tree of [busy_watson]. *)
Definition busy_forest : forest :=
  {| objects :=
       [ {| po_frames := [ {| rf_start := 50; rf_stop := 60; rf_message := None; rf_id := None |};
                           {| rf_start := 10; rf_stop := 20; rf_message := Some "fix"; rf_id := Some (PInt 7) |} ];
            po_projects := [("doc", 1)] |};
         {| po_frames := [ {| rf_start := 10; rf_stop := 15; rf_message := None; rf_id := None |} ];
            po_projects := [] |};
         {| po_frames := [ {| rf_start := 5; rf_stop := 8; rf_message := None; rf_id := None |} ];
            po_projects := [] |} ];
     top := [("work", 0); ("home", 2)] |}.

Definition noon : Arrow := {| micros := 1400000000250000; utcoffset := 7200 |}.
Definition later : Arrow := {| micros := 1400000900000000; utcoffset := 7200 |}.

(** A store with two projects with frames, one of them a sub-project, and
    a session running since [noon]. *)
Definition busy_watson : Watson :=
  {| tree :=
       [("work",
         Node [ {| rf_start := 50; rf_stop := 60; rf_message := None; rf_id := None |};
                {| rf_start := 10; rf_stop := 20; rf_message := Some "fix"; rf_id := Some (PInt 7) |} ]
              [("doc",
                Node [ {| rf_start := 10; rf_stop := 15; rf_message := None; rf_id := None |} ] [])]);
        ("home", Node [ {| rf_start := 5; rf_stop := 8; rf_message := None; rf_id := None |} ] [])];
     _current := Some {| s_project := "work/doc"; s_start := DArrow noon |} |}.

(** A decoder that reads the empty object only; every other text is
    refused, as [json.load] refuses the empty text. *)
Definition braces_only (text : string) : option document :=
  if String.eqb text "{}" then Some (DocDict empty_content) else None.

(** Two frame records without id in the object store, and the tree that
    holds their addresses. *)
Definition two_records : list pydict :=
  [ dict_of_raw {| rf_start := 10; rf_stop := 20; rf_message := None; rf_id := None |};
    dict_of_raw {| rf_start := 5; rf_stop := 8; rf_message := Some "m"; rf_id := None |} ].

Definition two_tree : list (string * node loc) :=
  [("work", Node [0] [("sub", Node [1] [])])].

(** A server that creates what it is sent and numbers it from 100. *)
Definition numbering_server : remote := fun req =>
  match req with
  | Post _ _ data =>
      Some {| status_code := 201;
              json := map (fun i => PInt (100 + Z.of_nat i)) (seq 0 (length data)) |}
  | Put _ _ _ => Some {| status_code := 200; json := [] |}
  end.

Definition crick : option (string * string) := Some ("http://crick", "secret").


(** ** Trees whose dicts have distinct keys *)

(** The names bound in the dict of sub-projects of a project are distinct,
    and so it is in every project below it: what a tree of Python dicts
    is. *)
Fixpoint well_keyed {F} (n : node F) : Prop :=
  NoDup (map fst (projects_of n))
  /\ (fix all (ps : list (string * node F)) : Prop :=
        match ps with
        | [] => True
        | (_, child) :: ps' => well_keyed child /\ all ps'
        end) (projects_of n).

(** ** More stores *)

(** One record that has an id. *)
Definition synced_records : list pydict :=
  [ dict_of_raw {| rf_start := 10; rf_stop := 20; rf_message := None;
                   rf_id := Some (PInt 7) |} ].

Definition synced_tree : list (string * node loc) := [("work", Node [0] [])].

(** One record with an id and one without, in one project. *)
Definition mixed_records : list pydict :=
  [ dict_of_raw {| rf_start := 10; rf_stop := 20; rf_message := None;
                   rf_id := Some (PInt 7) |};
    dict_of_raw {| rf_start := 5; rf_stop := 8; rf_message := None;
                   rf_id := None |} ].

Definition mixed_tree : list (string * node loc) := [("work", Node [0; 1] [])].


(** What the example stores read as: the tree of records behind the
    addresses, and the dicts of [frames] in their order. *)
Definition synced_node : node raw_frame :=
  Node [] [("work", Node [MkRaw 10 20 None (Some (PInt 7))] [])].

Definition mixed_node : node raw_frame :=
  Node [] [("work", Node [MkRaw 10 20 None (Some (PInt 7)); MkRaw 5 8 None None] [])].

Definition mixed_frames : list pydict :=
  [ flat_frame "work" (MkRaw 5 8 None None);
    flat_frame "work" (MkRaw 10 20 None (Some (PInt 7))) ].

Definition two_node : node raw_frame :=
  Node [] [("work", Node [MkRaw 10 20 None None]
                         [("sub", Node [MkRaw 5 8 (Some "m") None] [])])].

Definition two_frames : list pydict :=
  [ flat_frame "work/sub" (MkRaw 5 8 (Some "m") None);
    flat_frame "work" (MkRaw 10 20 None None) ].
(** * Properties *)

(** ** The timestamp codec *)

Lemma timestamp_utcfromtimestamp (n : Z) : timestamp (utcfromtimestamp n) = n.
Proof.
  unfold timestamp, utcfromtimestamp; simpl.
  apply Z.div_mul; lia.
Qed.

Lemma format_date_int (n : Z) : _format_date (DInt n) = n.
Proof. apply timestamp_utcfromtimestamp. Qed.

(** C7: formatting an instant gives its whole seconds since the epoch,
    whatever its sub-second part and its zone, and parsing that number back
    gives an instant of the same second: the same timestamp, at most the
    sub-second part (less than a second) earlier. *)
Theorem timestamp_round_trip (a : Arrow) :
  _format_date (DArrow a) = (micros a / 1000000)%Z
  /\ (forall zone, _format_date (DArrow {| micros := micros a; utcoffset := zone |})
                   = _format_date (DArrow a))
  /\ timestamp (_parse_date (_format_date (DArrow a))) = timestamp a
  /\ (0 <= micros a - micros (_parse_date (_format_date (DArrow a))) < 1000000)%Z
  /\ _format_date (DArrow (_parse_date (_format_date (DArrow a)))) = _format_date (DArrow a).
Proof.
  unfold _format_date, _parse_date.
  rewrite !timestamp_utcfromtimestamp.
  repeat split; try reflexivity.
  - unfold utcfromtimestamp, timestamp; simpl.
    pose proof (Z.mod_pos_bound (micros a) 1000000 ltac:(lia)).
    pose proof (Z.div_mod (micros a) 1000000 ltac:(lia)). lia.
  - unfold utcfromtimestamp, timestamp; simpl.
    pose proof (Z.mod_pos_bound (micros a) 1000000 ltac:(lia)).
    pose proof (Z.div_mod (micros a) 1000000 ltac:(lia)). lia.
Qed.

(** ** The persisted document *)

(** C2: loading what [dump] gives yields a store with the same tree (its
    projects and frames, ids and messages included) and the same session:
    none when there was none; the same project otherwise, with for start
    the whole second of the instant it held (the microseconds divided by
    1000000, rounded down, so less than a second before the instant), or
    the number of seconds it held; it dumps to the same document. *)
Theorem dump_load_round_trip (now : Arrow) (w : Watson) :
  exists w', _load now (DocDict (dump w)) = Ok w'
    /\ tree w' = tree w
    /\ get_frames (root w') "" = get_frames (root w) ""
    /\ frames w' = frames w
    /\ projects w' = projects w
    /\ same_session (_current w) (_current w')
    /\ _current w'
       = (fun s => {| s_project := s_project s;
                      s_start := DInt (_format_date (s_start s)) |})
         <$> _current w
    /\ (_current w = None -> _current w' = None)
    /\ (forall project a,
          _current w = Some {| s_project := project; s_start := DArrow a |} ->
          _current w'
          = Some {| s_project := project;
                    s_start := DInt (micros a / 1000000) |}
          /\ (1000000 * (micros a / 1000000) <= micros a
               < 1000000 * (micros a / 1000000) + 1000000)%Z)
    /\ (forall project n,
          _current w = Some {| s_project := project; s_start := DInt n |} ->
          _current w' = Some {| s_project := project; s_start := DInt n |})
    /\ is_started w' = is_started w
    /\ dump w' = dump w.
Proof.
  destruct w as [t [[p s]|]]; simpl.
  - eexists; split; [reflexivity|]. unfold dump; simpl.
    rewrite format_date_int.
    split; [reflexivity|]. split; [reflexivity|]. split; [reflexivity|].
    split; [reflexivity|]. split; [split; reflexivity|].
    split; [reflexivity|]. split; [discriminate|].
    split; [|split; [|split; reflexivity]].
    + intros project a E. inversion E; subst. split; [reflexivity|].
      pose proof (Z.mod_pos_bound (micros a) 1000000 ltac:(lia)).
      pose proof (Z.div_mod (micros a) 1000000 ltac:(lia)). lia.
    + intros project n E. inversion E; subst.
      now rewrite format_date_int.
  - eexists; split; [reflexivity|].
    split; [reflexivity|]. split; [reflexivity|]. split; [reflexivity|].
    split; [reflexivity|]. split; [exact I|].
    split; [reflexivity|]. split; [reflexivity|].
    split; [discriminate|]. split; [discriminate|]. split; reflexivity.
Qed.

Section LoadFile.
Variable json_load : string -> option document.
Hypothesis json_load_empty : json_load "" = None.

Lemma load_watson_file_unparseable (text : string) :
  json_load text = None ->
  _load_watson_file json_load (Some text)
  = if Nat.eqb (String.length text) 0 then Ok (DocDict empty_content)
    else Raise (EWatson InvalidWatsonFile).
Proof. intros H. unfold _load_watson_file. now rewrite H. Qed.

Lemma load_file_zero_length (now : Arrow) (text : string) :
  String.length text = 0 ->
  load_file json_load now (Some text) = Ok empty_watson.
Proof.
  intros Hlen. destruct text; [|discriminate].
  unfold load_file. rewrite load_watson_file_unparseable by assumption.
  reflexivity.
Qed.
End LoadFile.

(** C3: with a decoder that refuses the empty text, as [json.load] does,
    loading gives the empty store when the file cannot be opened and when
    it has length zero, and raises the [WatsonError] of an invalid file for
    every text of positive length that the decoder refuses; a document
    without ['projects'] gives the empty tree, one without ['current'] no
    session. *)
Theorem load_error_partition (json_load : string -> option document)
    (now : Arrow) (text : string) :
  json_load "" = None ->
  load_file json_load now None = Ok empty_watson
  /\ (String.length text = 0 ->
      load_file json_load now (Some text) = Ok empty_watson)
  /\ (String.length text <> 0 -> json_load text = None ->
      load_file json_load now (Some text) = Raise (EWatson InvalidWatsonFile))
  /\ (forall cur, exists w,
        _load now (DocDict {| c_projects := None; c_current := cur |}) = Ok w
        /\ tree w = [])
  /\ (forall ps, exists w,
        _load now (DocDict {| c_projects := ps; c_current := None |}) = Ok w
        /\ _current w = None /\ is_started w = false).
Proof.
  intros Hempty. repeat split.
  - intros Hlen. now apply load_file_zero_length.
  - intros Hlen Hbad. unfold load_file.
    rewrite load_watson_file_unparseable by assumption.
    destruct (Nat.eqb_spec (String.length text) 0); [contradiction|reflexivity].
  - intros cur. eexists; split; [reflexivity|].
    destruct cur as [[[p|] s]|]; reflexivity.
  - intros ps. eexists; split; [reflexivity|]. split; reflexivity.
Qed.

Lemma load_error_partition_witness :
  load_file braces_only noon None = Ok empty_watson
  /\ load_file braces_only noon (Some "") = Ok empty_watson
  /\ load_file braces_only noon (Some "{{") = Raise (EWatson InvalidWatsonFile).
Proof.
  destruct (load_error_partition braces_only noon "" eq_refl) as (H1 & H2 & _).
  destruct (load_error_partition braces_only noon "{{" eq_refl) as (_ & _ & H3 & _).
  split; [exact H1|]. split; [apply H2; reflexivity|].
  apply H3; [discriminate|reflexivity].
Defined.

(** ** Ordered dicts *)

Section OdictFacts.
Context {V : Type}.
Implicit Types (d : list (string * V)) (k : string) (v : V).

Lemma od_get_set_eq k v d : od_get k (od_set k v d) = Some v.
Proof.
  induction d as [|[k' v'] d IH]; simpl.
  - now rewrite String.eqb_refl.
  - destruct (String.eqb_spec k k') as [->|Hne]; simpl.
    + now rewrite String.eqb_refl.
    + destruct (String.eqb_spec k k'); [contradiction|exact IH].
Qed.

Lemma od_get_set_ne k k' v d :
  k <> k' -> od_get k' (od_set k v d) = od_get k' d.
Proof.
  intros Hne. induction d as [|[k0 v0] d IH]; simpl.
  - destruct (String.eqb_spec k' k); [congruence|reflexivity].
  - destruct (String.eqb_spec k k0) as [->|Hk]; simpl.
    + destruct (String.eqb_spec k' k0); [congruence|reflexivity].
    + destruct (String.eqb_spec k' k0); [reflexivity|exact IH].
Qed.

Lemma od_set_set k v v' d : od_set k v (od_set k v' d) = od_set k v d.
Proof.
  induction d as [|[k0 v0] d IH]; simpl.
  - now rewrite String.eqb_refl.
  - destruct (String.eqb_spec k k0) as [->|Hk]; simpl.
    + now rewrite String.eqb_refl.
    + destruct (String.eqb_spec k k0); [contradiction|now rewrite IH].
Qed.

Lemma od_get_In k v d : od_get k d = Some v -> In (k, v) d.
Proof.
  induction d as [|[k0 v0] d IH]; simpl; [discriminate|].
  destruct (String.eqb_spec k k0) as [->|Hk].
  - intros [= ->]. now left.
  - intros H. right. now apply IH.
Qed.

End OdictFacts.

(** ** Paths *)

Lemma split_not_nil (sep : ascii) (s : string) : split sep s <> [].
Proof.
  destruct s as [|c s]; simpl; [discriminate|].
  destruct (Ascii.eqb c sep); [discriminate|].
  destruct (split sep s); discriminate.
Qed.

Lemma join_path_cons (name : string) (rest : list string) :
  rest <> [] -> join_path (name :: rest) = name +:+ "/" +:+ join_path rest.
Proof. destruct rest; [congruence|reflexivity]. Qed.

Lemma join_path_cons_char (c : ascii) (hd : string) (tl : list string) :
  join_path (String c hd :: tl) = String c (join_path (hd :: tl)).
Proof. destruct tl; reflexivity. Qed.

(** The names a path splits into spell the path. *)
Lemma join_split (s : string) : join_path (split slash s) = s.
Proof.
  induction s as [|c s IH]; [reflexivity|].
  simpl split. destruct (Ascii.eqb_spec c slash) as [->|Hc].
  - rewrite join_path_cons by apply split_not_nil. now rewrite IH.
  - pose proof (split_not_nil slash s) as Hnil.
    destruct (split slash s) as [|hd tl]; [contradiction|].
    rewrite join_path_cons_char. now rewrite IH.
Qed.

Lemma append_cons (c : ascii) (a b : string) :
  String c a +:+ b = String c (a +:+ b).
Proof. reflexivity. Qed.

Lemma append_nil_l (a : string) : "" +:+ a = a.
Proof. reflexivity. Qed.

Lemma append_assoc (a b c : string) : (a +:+ b) +:+ c = a +:+ (b +:+ c).
Proof.
  induction a as [|x a IH]; [reflexivity|].
  rewrite !append_cons. now rewrite IH.
Qed.

(** ** The walk of [Watson.project] *)

Lemma node_at_empty {F} (names : list string) :
  names <> [] -> node_at names (@empty_project F) = None.
Proof. destruct names; [congruence|reflexivity]. Qed.

Lemma frames_at_empty {F} (names : list string) :
  frames_at names (@empty_project F) = [].
Proof. destruct names; reflexivity. Qed.

Lemma node_at_app {F} (a b : list string) (n : node F) :
  node_at (a ++ b) n = match node_at a n with
                       | Some m => node_at b m
                       | None => None
                       end.
Proof.
  revert n. induction a as [|x a IH]; intros n; simpl; [reflexivity|].
  destruct (od_get x (projects_of n)); [apply IH|reflexivity].
Qed.

Section Walk.
Context {F : Type} (k : node F -> node F).
Implicit Types (n : node F) (names : list string).

Lemma project_walk_cons name rest n :
  project_walk k (name :: rest) n
  = let child := default empty_project (od_get name (projects_of n)) in
    (Node (frames_of n)
          (od_set name (fst (project_walk k rest child)) (projects_of n)),
     snd (project_walk k rest child)).
Proof.
  simpl. destruct (od_get name (projects_of n)); simpl;
    now destruct (project_walk k rest _).
Qed.

(** The project handed back is the one the names lead to, a new empty
    one when there was none, after the caller's update. *)
Lemma project_walk_reached names n :
  snd (project_walk k names n) = k (default empty_project (node_at names n)).
Proof.
  revert n. induction names as [|name rest IH]; intros n; [reflexivity|].
  rewrite project_walk_cons. cbn [snd]. rewrite IH. simpl.
  destruct (od_get name (projects_of n)); simpl; [reflexivity|].
  destruct rest; reflexivity.
Qed.

Lemma node_at_project_walk names n :
  node_at names (fst (project_walk k names n))
  = Some (snd (project_walk k names n)).
Proof.
  revert n. induction names as [|name rest IH]; intros n; [reflexivity|].
  rewrite project_walk_cons. cbn [fst snd node_at projects_of].
  rewrite od_get_set_eq. apply IH.
Qed.

(** A project off the path walked is left as it was. *)
Lemma node_at_project_walk_off names : forall q n,
  ~ q `prefix_of` names -> ~ names `prefix_of` q ->
  node_at q (fst (project_walk k names n)) = node_at q n.
Proof.
  induction names as [|name rest IH]; intros q n Hq Hn.
  - exfalso. apply Hn. apply prefix_nil.
  - destruct q as [|x q]; [exfalso; apply Hq, prefix_nil|].
    rewrite project_walk_cons. cbn [fst node_at projects_of].
    destruct (decide (name = x)) as [->|Hne].
    + rewrite od_get_set_eq.
      rewrite IH.
      * destruct (od_get x (projects_of n)); simpl; [reflexivity|].
        apply node_at_empty. intros ->. apply Hq, prefix_cons, prefix_nil.
      * intros Hp. apply Hq. now apply prefix_cons.
      * intros Hp. apply Hn. now apply prefix_cons.
    + now rewrite od_get_set_ne.
Qed.

(** A project on the way keeps its frames. *)
Lemma frames_at_project_walk_above q : forall r n,
  r <> [] ->
  frames_at q (fst (project_walk k (q ++ r) n)) = frames_at q n.
Proof.
  induction q as [|x q IH]; intros r n Hr.
  - destruct r as [|name rest]; [congruence|].
    simpl app. rewrite project_walk_cons. reflexivity.
  - simpl app. rewrite project_walk_cons.
    unfold frames_at. cbn [fst node_at projects_of].
    rewrite od_get_set_eq.
    specialize (IH r (default empty_project (od_get x (projects_of n))) Hr).
    unfold frames_at in IH. rewrite IH.
    destruct (od_get x (projects_of n)); simpl; [reflexivity|].
    apply (@frames_at_empty F q).
Qed.

Lemma frames_of_project_walk names n :
  names <> [] -> frames_of (fst (project_walk k names n)) = frames_of n.
Proof.
  destruct names; [congruence|]. intros _.
  now rewrite project_walk_cons.
Qed.
End Walk.

(** Walking the same names again finds what the first walk left and
    changes nothing. *)
Lemma project_walk_again {F} (names : list string) (n : node F) :
  project_walk (fun m => m) names (fst (project_walk (fun m => m) names n))
  = project_walk (fun m => m) names n.
Proof.
  revert n. induction names as [|name rest IH]; intros n; [reflexivity|].
  rewrite (project_walk_cons _ name rest n). cbn zeta. cbn [fst].
  rewrite project_walk_cons. cbn [projects_of frames_of].
  rewrite od_get_set_eq. cbn [default from_option id].
  rewrite IH. now rewrite od_set_set.
Qed.

(** A project below the one reached is neither added nor changed by a walk
    that only looks. *)
Lemma node_at_project_walk_below {F} (names r : list string) (n : node F) :
  r <> [] ->
  node_at (names ++ r) (fst (project_walk (fun m => m) names n))
  = node_at (names ++ r) n.
Proof.
  intros Hr. rewrite !node_at_app, node_at_project_walk, project_walk_reached.
  destruct (node_at names n); simpl; [reflexivity|].
  now apply node_at_empty.
Qed.

(** What a walk that only looks leaves unchanged: every project that is
    not on the way to the one reached. *)
Lemma node_at_project_walk_id {F} (names q : list string) (n : node F) :
  ~ q `prefix_of` names ->
  node_at q (fst (project_walk (fun m => m) names n)) = node_at q n.
Proof.
  intros Hq. destruct (decide (names `prefix_of` q)) as [[r ->]|Hn].
  - apply node_at_project_walk_below. intros ->.
    apply Hq. rewrite app_nil_r. reflexivity.
  - now apply node_at_project_walk_off.
Qed.

(** ** The sort *)

Lemma mapM_ok {A B} (f : A -> result B) (g : A -> B) (l : list A) :
  (forall x, In x l -> f x = Ok (g x)) -> mapM f l = Ok (map g l).
Proof.
  induction l as [|x l IH]; intros Hf; [reflexivity|].
  simpl. rewrite (Hf x) by now left. simpl.
  rewrite IH by (intros y Hy; apply Hf; now right). reflexivity.
Qed.

Section SortFacts.
Context {A K : Type} (ltb : K -> K -> bool).
Implicit Types (l : list (K * A)) (x : K * A).

Lemma insert_sorted_perm x l : Permutation (insert_sorted ltb x l) (x :: l).
Proof.
  induction l as [|y l IH]; simpl; [reflexivity|].
  destruct (ltb (fst y) (fst x)); [|reflexivity].
  rewrite IH. apply perm_swap.
Qed.

Lemma sort_pairs_perm l : Permutation (sort_pairs ltb l) l.
Proof.
  induction l as [|x l IH]; simpl; [reflexivity|].
  rewrite insert_sorted_perm. now constructor.
Qed.

Hypothesis ltb_asym : forall a b, ltb a b = true -> ltb b a = false.

Lemma insert_sorted_Sorted x l :
  Sorted (in_order ltb) l -> Sorted (in_order ltb) (insert_sorted ltb x l).
Proof.
  induction l as [|y l IH]; intros Hs; simpl.
  - repeat constructor.
  - destruct (ltb (fst y) (fst x)) eqn:Hlt.
    + apply Sorted_inv in Hs as [Hs Hhd].
      constructor; [now apply IH|].
      destruct l as [|z l]; simpl.
      * constructor. now apply ltb_asym.
      * destruct (ltb (fst z) (fst x)).
        -- inversion Hhd; subst. now constructor.
        -- constructor. now apply ltb_asym.
    + constructor; [assumption|]. now constructor.
Qed.

Lemma sort_pairs_Sorted l : Sorted (in_order ltb) (sort_pairs ltb l).
Proof.
  induction l as [|x l IH]; simpl; [constructor|].
  now apply insert_sorted_Sorted.
Qed.
End SortFacts.

(** Keys that are ordered by an integer rank. *)
Section RankedSort.
Context {A K : Type} (ltb : K -> K -> bool) (rank : K -> Z).
Hypothesis ltb_rank : forall a b, ltb a b = (rank a <? rank b)%Z.
Implicit Types (l : list (K * A)) (x : K * A).

Lemma insert_sorted_strongly x l :
  StronglySorted (rank_le rank) l -> StronglySorted (rank_le rank) (insert_sorted ltb x l).
Proof.
  induction l as [|y l IH]; intros Hs; simpl.
  - repeat constructor.
  - rewrite ltb_rank. destruct (Z.ltb_spec (rank (fst y)) (rank (fst x))) as [Hlt|Hge].
    + apply StronglySorted_inv in Hs as [Hs Hall].
      constructor; [now apply IH|].
      rewrite (insert_sorted_perm ltb x l).
      constructor; [unfold rank_le; lia|assumption].
    + constructor; [assumption|].
      constructor; [exact Hge|].
      apply StronglySorted_inv in Hs as [_ Hall].
      eapply Forall_impl; [exact Hall|].
      intros z Hz. unfold rank_le in *. lia.
Qed.

Lemma sort_pairs_strongly l : StronglySorted (rank_le rank) (sort_pairs ltb l).
Proof.
  induction l as [|x l IH]; simpl; [constructor|].
  now apply insert_sorted_strongly.
Qed.

(** Stability: the elements of one rank keep the order they came in. *)
Lemma insert_sorted_stable (c : Z) x l :
  List.filter (fun p => (rank (fst p) =? c)%Z) (insert_sorted ltb x l)
  = List.filter (fun p => (rank (fst p) =? c)%Z) (x :: l).
Proof.
  induction l as [|y l IH]; [reflexivity|].
  cbn [insert_sorted]. rewrite ltb_rank.
  destruct (Z.ltb_spec (rank (fst y)) (rank (fst x))) as [Hlt|Hge]; [|reflexivity].
  cbn [List.filter] in *. rewrite IH.
  destruct (Z.eqb_spec (rank (fst x)) c) as [Hx|Hx];
    destruct (Z.eqb_spec (rank (fst y)) c) as [Hy|Hy]; try reflexivity.
  lia.
Qed.

Lemma sort_pairs_stable (c : Z) l :
  List.filter (fun p => (rank (fst p) =? c)%Z) (sort_pairs ltb l)
  = List.filter (fun p => (rank (fst p) =? c)%Z) l.
Proof.
  induction l as [|x l IH]; [reflexivity|].
  cbn [sort_pairs]. rewrite insert_sorted_stable.
  cbn [List.filter]. now rewrite IH.
Qed.
End RankedSort.

(** The sort with keys that never fail. *)
Section SortedBy.
Context {A K : Type} (ltb : K -> K -> bool).
Variables (key : A -> result K) (k : A -> K) (l : list A).
Hypothesis key_ok : forall x, In x l -> key x = Ok (k x).

Lemma combine_keys (l' : list A) : combine (map k l') l' = map (keyed k) l'.
Proof. induction l' as [|x l' IH]; simpl; [reflexivity|now rewrite IH]. Qed.

Lemma sorted_eq :
  sorted ltb key l = Ok (map snd (sort_pairs ltb (map (keyed k) l))).
Proof.
  unfold sorted. rewrite (mapM_ok key k l key_ok). simpl.
  now rewrite combine_keys.
Qed.

Lemma sort_pairs_keyed :
  sort_pairs ltb (map (keyed k) l) = map (keyed k) (map snd (sort_pairs ltb (map (keyed k) l))).
Proof.
  assert (Hall : Forall (fun p => p = keyed k (snd p)) (sort_pairs ltb (map (keyed k) l))).
  { apply Forall_forall. intros p Hp.
    apply list_elem_of_In in Hp.
    apply (Permutation_in _ (sort_pairs_perm ltb (map (keyed k) l))) in Hp.
    apply in_map_iff in Hp as (x & <- & _). reflexivity. }
  induction Hall as [|p ps Hp _ IH]; [reflexivity|].
  simpl. now rewrite <- IH, <- Hp.
Qed.

Lemma sorted_perm :
  Permutation (map snd (sort_pairs ltb (map (keyed k) l))) l.
Proof.
  rewrite (sort_pairs_perm ltb (map (keyed k) l)).
  rewrite map_map. simpl. now rewrite map_id.
Qed.
End SortedBy.

(** ** The flattened frames *)

Lemma get_frames_cons fs name child rest ancestors :
  get_frames (Node fs ((name, child) :: rest)) ancestors
  = map (flat_frame (ancestors +:+ name)) (frames_of child)
    ++ get_frames child (ancestors +:+ name +:+ "/")
    ++ get_frames (Node fs rest) ancestors.
Proof. simpl. now rewrite <- app_assoc. Qed.

Lemma get_frames_projects (n m : node raw_frame) ancestors :
  projects_of n = projects_of m -> get_frames n ancestors = get_frames m ancestors.
Proof. destruct n, m; simpl; now intros ->. Qed.

Lemma flat_frame_start project raw :
  flat_frame project raw !! "start" = Some (PArrow (_parse_date (rf_start raw))).
Proof. reflexivity. Qed.

Lemma flat_frame_keys project raw : dom (flat_frame project raw) = flat_keys.
Proof.
  unfold flat_frame, flat_keys. rewrite !dom_insert_L, dom_singleton_L.
  set_solver.
Qed.

Lemma start_key_flat_frame project raw :
  start_key (flat_frame project raw) = Ok (start_arrow (flat_frame project raw)).
Proof. reflexivity. Qed.

Lemma start_micros_flat_frame project raw :
  start_micros (flat_frame project raw) = (rf_start raw * 1000000)%Z.
Proof. reflexivity. Qed.

Lemma reaches_node_at {F} (names : list string) : forall (n m : node F),
  node_at names n = Some m -> reaches n names m.
Proof.
  induction names as [|name rest IH]; intros n m; simpl.
  - intros [= ->]. constructor.
  - destruct (od_get name (projects_of n)) as [child|] eqn:Hget; [|discriminate].
    intros Hm. apply reaches_step with child.
    + apply od_get_In. exact Hget.
    + apply IH. exact Hm.
Qed.

(** What [get_frames] lists: for every project below the parent, whatever
    names lead to it, every frame of the project with the names joined by
    '/' after [ancestors]. *)
Lemma in_get_frames (n : node raw_frame) : forall ancestors f,
  In f (get_frames n ancestors)
  <-> exists names m raw,
        names <> [] /\ reaches n names m /\ In raw (frames_of m)
        /\ f = flat_frame (ancestors +:+ join_path names) raw.
Proof.
  induction n as [fs ps IH] using node_ind. intros ancestors f.
  destruct (Node fs ps) as [fs' ps'] eqn:E. injection E as -> ->. simpl get_frames.
  rewrite in_flat_map. split.
  - intros ([name child] & Hin & Hf).
    apply in_app_or in Hf as [Hf|Hf].
    + apply in_map_iff in Hf as (raw & <- & Hraw).
      exists [name], child, raw. repeat split; [discriminate| |assumption].
      econstructor; [exact Hin|constructor].
    + rewrite Forall_forall in IH.
      specialize (IH (name, child) ltac:(now apply list_elem_of_In)). simpl in IH.
      apply IH in Hf as (names & m & raw & Hne & Hr & Hraw & ->).
      exists (name :: names), m, raw. repeat split; [discriminate| |assumption|].
      * econstructor; [exact Hin|exact Hr].
      * rewrite join_path_cons by assumption. now rewrite !append_assoc.
  - intros (names & m & raw & Hne & Hr & Hraw & ->).
    inversion Hr as [|? name child rest ? Hin Hrest]; subst; [congruence|].
    exists (name, child). split; [exact Hin|].
    apply in_or_app. destruct rest as [|x rest].
    + inversion Hrest; subst. left. simpl. now apply in_map.
    + right. rewrite Forall_forall in IH.
      specialize (IH (name, child) ltac:(now apply list_elem_of_In)). simpl in IH.
      apply IH. exists (x :: rest), m, raw.
      repeat split; [discriminate|assumption|assumption|].
      rewrite (join_path_cons name (x :: rest)) by discriminate.
      now rewrite !append_assoc.
Qed.

Lemma get_frames_flat (n : node raw_frame) ancestors f :
  In f (get_frames n ancestors) -> exists project raw, f = flat_frame project raw.
Proof.
  intros Hf. apply in_get_frames in Hf as (names & m & raw & _ & _ & _ & ->).
  eauto.
Qed.

Lemma frames_eq (w : Watson) :
  frames w
  = Ok (map snd (sort_pairs arrow_ltb
                   (map (keyed start_arrow) (get_frames (root w) "")))).
Proof.
  unfold frames. apply sorted_eq.
  intros f Hf. apply get_frames_flat in Hf as (project & raw & ->).
  apply start_key_flat_frame.
Qed.

Lemma get_frames_without_messages (n : node raw_frame) : forall ancestors,
  get_frames (without_messages n) ancestors = get_frames n ancestors.
Proof.
  induction n as [fs ps IH] using node_ind. intros ancestors.
  simpl. induction ps as [|[name child] ps IHps]; [reflexivity|].
  apply Forall_cons in IH as [Hchild Hps]. simpl in *.
  rewrite IHps by assumption. rewrite Hchild.
  f_equal. f_equal. destruct child as [cfs cps]; simpl.
  rewrite map_map. reflexivity.
Qed.

(** ** Frames added through [add_frame] *)

Lemma node_eta {F} (n : node F) : Node (frames_of n) (projects_of n) = n.
Proof. now destruct n. Qed.

Lemma flat_map_od_set {V B} (g : string * V -> list B) (a : string) (v' v0 : V)
    (x : B) (d : list (string * V)) :
  g (a, v0) = [] ->
  Permutation (g (a, v')) (x :: g (a, default v0 (od_get a d))) ->
  Permutation (flat_map g (od_set a v' d)) (x :: flat_map g d).
Proof.
  intros Hempty. induction d as [|[k0 w0] d IH]; simpl; intros Hperm.
  - rewrite Hempty in Hperm. now rewrite app_nil_r.
  - destruct (String.eqb_spec a k0) as [<-|Hne]; simpl.
    + rewrite Hperm. reflexivity.
    + rewrite IH by assumption. symmetry. apply Permutation_middle.
Qed.

Lemma get_frames_project_walk_append (frame : raw_frame) (names : list string) :
  names <> [] ->
  forall n ancestors,
    Permutation
      (get_frames (fst (project_walk (append_frame frame) names n)) ancestors)
      (flat_frame (ancestors +:+ join_path names) frame :: get_frames n ancestors).
Proof.
  induction names as [|a rest IH]; [congruence|]. intros _ n ancestors.
  rewrite project_walk_cons. cbn zeta. cbn [fst].
  destruct n as [fs ps]. cbn [projects_of frames_of].
  set (child := default empty_project (od_get a ps)).
  change (get_frames (Node fs ?d) ancestors)
    with (flat_map (fun '(name, project) =>
                      map (flat_frame (ancestors +:+ name)) (frames_of project)
                      ++ get_frames project (ancestors +:+ name +:+ "/")) d).
  apply (flat_map_od_set _ a _ empty_project); [reflexivity|].
  fold child. destruct rest as [|b rest].
  - simpl project_walk. cbn [fst append_frame frames_of].
    rewrite (get_frames_projects (Node (frames_of child ++ [frame]) (projects_of child)) child)
      by reflexivity.
    rewrite map_app. simpl map. rewrite <- app_assoc. simpl.
    symmetry. apply Permutation_middle.
  - rewrite frames_of_project_walk by discriminate.
    rewrite (IH ltac:(discriminate) child).
    rewrite (join_path_cons a (b :: rest)) by discriminate.
    rewrite !append_assoc.
    symmetry. apply Permutation_middle.
Qed.

Lemma root_add_frame project start stop message w :
  root (add_frame project start stop message w)
  = fst (project_walk (append_frame (frame_of start stop message))
                      (split slash project) (root w)).
Proof.
  unfold add_frame, root.
  pose proof (frames_of_project_walk (append_frame (frame_of start stop message))
                (split slash project) (Node [] (tree w)) (split_not_nil _ _)) as Hfs.
  destruct (project_walk _ _ _) as [t reached]. simpl in *.
  rewrite <- Hfs. apply node_eta.
Qed.

Lemma root_project name w :
  root (fst (project name w))
  = fst (project_walk (fun m => m) (split slash name) (root w)).
Proof.
  unfold project, root.
  pose proof (frames_of_project_walk (fun m => m)
                (split slash name) (Node [] (tree w)) (split_not_nil _ _)) as Hfs.
  destruct (project_walk _ _ _) as [t reached]. simpl in *.
  rewrite <- Hfs. apply node_eta.
Qed.

Lemma frames_at_append_frame {F} (frame : F) (names : list string) (n : node F) :
  names <> [] -> frames_at names (append_frame frame n) = frames_at names n.
Proof. destruct names; [congruence|reflexivity]. Qed.

(** [add_frame] appends its frame to the frames of the project named and
    changes the frames of no other project. *)
Lemma frames_at_add_frame project start stop message w (q : list string) :
  frames_at q (root (add_frame project start stop message w))
  = if decide (q = split slash project)
    then frames_at q (root w) ++ [frame_of start stop message]
    else frames_at q (root w).
Proof.
  rewrite root_add_frame.
  set (k := append_frame (frame_of start stop message)).
  set (names := split slash project).
  destruct (decide (q = names)) as [->|Hne].
  - unfold frames_at at 1. rewrite node_at_project_walk, project_walk_reached.
    unfold frames_at. destruct (node_at names (root w)); reflexivity.
  - destruct (decide (names `prefix_of` q)) as [[r ->]|Hn].
    + unfold frames_at at 1.
      rewrite node_at_app, node_at_project_walk, project_walk_reached.
      assert (Hr : r <> []) by (intros ->; apply Hne; now rewrite app_nil_r).
      fold (frames_at r (k (default empty_project (node_at names (root w))))).
      unfold k. rewrite frames_at_append_frame by assumption.
      unfold frames_at. rewrite node_at_app.
      destruct (node_at names (root w)); simpl; [reflexivity|].
      now rewrite node_at_empty.
    + destruct (decide (q `prefix_of` names)) as [[r Hr]|Hq].
      * rewrite Hr. apply frames_at_project_walk_above.
        intros ->. apply Hne. now rewrite app_nil_r in Hr.
      * unfold frames_at. now rewrite node_at_project_walk_off.
Qed.

(** ** The session *)

Lemma is_started_current (w : Watson) :
  is_started w = match _current w with Some _ => true | None => false end.
Proof. unfold is_started, current. now destruct (_current w). Qed.

(** C4, as the code has it: [start] on a running session fails with the
    error of a project already started, and on an idle one with no project
    given ([None] or the empty string) with the error of no project; every
    other name, one made of blanks included, starts a session under that
    name at the instant read from the clock; [stop] and [cancel] on an
    idle session fail with the error of no project started; a [stop] that
    succeeds leaves no session, appends one frame to the frames of the
    project that was running and changes the frames of no other project, so
    the flattened frames gain that one frame and nothing else; [start] and
    [cancel] leave the tree as it is. *)
Theorem session_exclusivity (now : Arrow) (w : Watson) :
  (forall s project, _current w = Some s ->
     start now project w = Raise (EWatson (AlreadyStarted (s_project s))))
  /\ (_current w = None ->
      start now None w = Raise (EWatson NoProjectGiven)
      /\ start now (Some "") w = Raise (EWatson NoProjectGiven))
  /\ (_current w = None -> forall p, p <> "" ->
      exists w' info,
        start now (Some p) w = Ok (w', info)
        /\ tree w' = tree w
        /\ _current w' = Some {| s_project := p; s_start := DArrow now |})
  /\ (_current w = None -> forall message,
      stop now message w = Raise (EWatson NoProjectStarted)
      /\ cancel now w = Raise (EWatson NoProjectStarted))
  /\ (forall s message, _current w = Some s ->
      exists w' info,
        stop now message w = Ok (w', info)
        /\ _current w' = None /\ is_started w' = false
        /\ (forall q,
              frames_at q (root w')
              = if decide (q = split slash (s_project s))
                then frames_at q (root w)
                     ++ [frame_of (s_start s) (DArrow now) message]
                else frames_at q (root w))
        /\ Permutation
             (get_frames (root w') "")
             (flat_frame (s_project s) (frame_of (s_start s) (DArrow now) message)
              :: get_frames (root w) ""))
  /\ (forall project w' info, start now project w = Ok (w', info) ->
      tree w' = tree w
      /\ exists p, project = Some p /\ p <> ""
           /\ _current w' = Some {| s_project := p; s_start := DArrow now |})
  /\ (forall w' info, cancel now w = Ok (w', info) ->
      tree w' = tree w /\ _current w' = None).
Proof.
  refine (conj _ (conj _ (conj _ (conj _ (conj _ (conj _ _)))))).
  - intros s p Hs. unfold start. now rewrite Hs.
  - intros H. unfold start. now rewrite H.
  - intros H p Hp. unfold start. rewrite H.
    destruct p as [|c p]; [congruence|].
    eexists _, _. split; [reflexivity|]. split; reflexivity.
  - intros H message. unfold stop, cancel. now rewrite H.
  - intros s message Hs. unfold stop. rewrite Hs.
    eexists _, _. split; [reflexivity|].
    split; [reflexivity|]. split; [reflexivity|].
    cbn [set_current]. split.
    + intros q.
      change (root {| tree := tree ?x; _current := None |}) with (root x).
      apply frames_at_add_frame.
    + change (root {| tree := tree ?x; _current := None |}) with (root x).
      rewrite root_add_frame.
      rewrite get_frames_project_walk_append by apply split_not_nil.
      now rewrite join_split.
  - intros p w' info H. unfold start in H.
    destruct (_current w); [discriminate|].
    destruct p as [[|c p]|]; try discriminate.
    inversion H; subst. split; [reflexivity|].
    eexists. split; [reflexivity|]. split; [discriminate|reflexivity].
  - intros w' info H. unfold cancel in H.
    destruct (_current w); [|discriminate].
    inversion H; subst. split; reflexivity.
Qed.

Lemma session_exclusivity_witness :
  start later (Some "home") busy_watson
  = Raise (EWatson (AlreadyStarted "work/doc"))
  /\ (stop later None empty_watson = Raise (EWatson NoProjectStarted)
      /\ cancel later empty_watson = Raise (EWatson NoProjectStarted)).
Proof.
  split.
  - exact (proj1 (session_exclusivity later busy_watson) _ (Some "home") eq_refl).
  - exact (proj1 (proj2 (proj2 (proj2 (session_exclusivity later empty_watson))))
             eq_refl None).
Defined.

(** C4, as the claim has it, fails: a project name made of blanks is not
    refused.  On the idle, empty store [start] with the name of two spaces
    raises no error and leaves a session running under that name; only
    [None] and the empty string are refused. *)
Lemma start_blank_name :
  ~ (forall now name w,
       _current w = None ->
       (forall c, In c (list_ascii_of_string name) -> c = " "%char) ->
       start now (Some name) w = Raise (EWatson NoProjectGiven))
  /\ start noon (Some "  ") empty_watson <> Raise (EWatson NoProjectGiven)
  /\ (exists w info,
        start noon (Some "  ") empty_watson = Ok (w, info)
        /\ is_started w = true
        /\ _current w = Some {| s_project := "  "; s_start := DArrow noon |}).
Proof.
  split; [|split].
  - intros H. specialize (H noon "  " empty_watson eq_refl).
    assert (Hb : forall c, In c (list_ascii_of_string "  ") -> c = " "%char).
    { intros c [<-|[<-|[]]]; reflexivity. }
    specialize (H Hb). discriminate H.
  - discriminate.
  - eexists _, _. split; [reflexivity|]. split; reflexivity.
Qed.

(** C5, as the code has it: a [stop] that succeeds returns the copy of the
    session made before it ended, a dict with the project and the start it
    was given and no other key (the instant of the stop is not in it); the
    frame it appends to the project starts at the formatted start and stops
    at the formatted [now], and no session is left. *)
Theorem stop_returns_session (now : Arrow) (message : option string)
    (w : Watson) (s : session) :
  _current w = Some s ->
  exists w',
    stop now message w = Ok (w', Some (session_dict s))
    /\ session_dict s !! "project" = Some (PStr (s_project s))
    /\ session_dict s !! "start" = Some (pyval_of_date (s_start s))
    /\ dom (session_dict s) = {[ "project"; "start" ]}
    /\ session_dict s !! "stop" = None
    /\ _current w' = None
    /\ frames_at (split slash (s_project s)) (root w')
       = frames_at (split slash (s_project s)) (root w)
         ++ [ {| rf_start := _format_date (s_start s);
                 rf_stop := timestamp now;
                 rf_message := rf_message (frame_of (s_start s) (DArrow now) message);
                 rf_id := None |} ].
Proof.
  intros Hs. unfold stop, current. rewrite Hs.
  eexists. split; [reflexivity|].
  split; [reflexivity|]. split; [reflexivity|].
  split; [unfold session_dict; rewrite dom_insert_L, dom_singleton_L; set_solver|].
  split; [reflexivity|]. split; [reflexivity|].
  cbn [set_current].
  change (root {| tree := tree ?x; _current := None |}) with (root x).
  rewrite frames_at_add_frame. rewrite decide_True by reflexivity.
  reflexivity.
Qed.

Lemma stop_returns_session_witness :
  exists w',
    stop later None busy_watson
    = Ok (w', Some (session_dict {| s_project := "work/doc"; s_start := DArrow noon |}))
    /\ frames_at ["work"; "doc"] (root w')
       = [ {| rf_start := 10; rf_stop := 15; rf_message := None; rf_id := None |};
           {| rf_start := 1400000000; rf_stop := 1400000900;
              rf_message := None; rf_id := None |} ].
Proof.
  destruct (stop_returns_session later None busy_watson _ eq_refl)
    as (w' & Hstop & _ & _ & _ & _ & _ & Hframes).
  exists w'. split; [exact Hstop|exact Hframes].
Defined.

(** C5, as the claim has it, fails: the value [stop] returns does not hold
    the instant of the stop.  On the running store it is the same dict,
    with the keys ['project'] and ['start'] only, whenever the stop is. *)
Lemma stop_return_lacks_stop :
  ~ (forall now message w s, _current w = Some s ->
       exists w' info stopped,
         stop now message w = Ok (w', Some info)
         /\ info !! "stop" = Some stopped)
  /\ (exists w1 w2 info,
        stop noon None busy_watson = Ok (w1, Some info)
        /\ stop later None busy_watson = Ok (w2, Some info)
        /\ dom info = {[ "project"; "start" ]}
        /\ w1 <> w2).
Proof.
  split.
  - intros H.
    destruct (H later None busy_watson _ eq_refl) as (w' & info & stopped & Hstop & Hkey).
    unfold stop in Hstop. simpl in Hstop. inversion Hstop; subst.
    vm_compute in Hkey. discriminate.
  - eexists _, _, _. split; [reflexivity|]. split; [reflexivity|].
    split; [unfold session_dict; rewrite dom_insert_L, dom_singleton_L; set_solver|].
    intros Heq. apply (f_equal tree) in Heq. vm_compute in Heq. discriminate.
Qed.

(** ** The walk of [Watson.project] on the objects *)

Lemma grows_refl st : grows st st.
Proof. split; auto. Qed.

Lemma grows_trans a b c : grows a b -> grows b c -> grows a c.
Proof. intros [H1 H2] [H3 H4]. split; [lia|auto]. Qed.

Lemma project_ref_cons name rest project st :
  project_ref (name :: rest) project st
  = match od_get name (projects_at project st) with
    | Some child => project_ref rest (Some child) st
    | None => project_ref rest (Some (length (objects st))) (add_child project name st)
    end.
Proof. reflexivity. Qed.

Lemma lookup_snoc_other {A} (l : list A) (x : A) (a : nat) :
  a <> length l -> (l ++ [x]) !! a = l !! a.
Proof.
  intros Ha. destruct (decide (a < length l)).
  - now rewrite lookup_app_l by lia.
  - rewrite !(proj2 (lookup_ge_None _ _)); [reflexivity|lia|].
    rewrite length_app. simpl. lia.
Qed.

Lemma projects_at_add_child_same project name st :
  valid_ref project st ->
  projects_at project (add_child project name st)
  = od_set name (length (objects st)) (projects_at project st).
Proof.
  intros Hv. unfold add_child. destruct project as [p|]; simpl in *; [|reflexivity].
  rewrite list_lookup_alter. destruct (decide (p = p)); [|congruence].
  rewrite lookup_app_l by lia.
  destruct (lookup_lt_is_Some_2 (objects st) p Hv) as [o Ho].
  rewrite Ho. reflexivity.
Qed.

Lemma projects_at_add_child_other project name st c :
  c <> project -> valid_ref c st ->
  projects_at c (add_child project name st) = projects_at c st.
Proof.
  intros Hne Hv. unfold add_child.
  destruct c as [a|]; simpl in *.
  - assert (Ha : (objects st ++ [ {| po_frames := []; po_projects := [] |} ]) !! a
                 = objects st !! a) by (apply lookup_snoc_other; lia).
    destruct project as [p|]; simpl; [|now rewrite Ha].
    rewrite list_lookup_alter_ne by congruence. now rewrite Ha.
  - destruct project as [p|]; [reflexivity|congruence].
Qed.

Lemma length_add_child project name st :
  length (objects (add_child project name st)) = S (length (objects st)).
Proof.
  unfold add_child. destruct project as [p|]; simpl.
  - rewrite length_alter, length_app. simpl. lia.
  - rewrite length_app. simpl. lia.
Qed.

Lemma od_get_valid st project name a :
  od_get name (projects_at project st) = Some a -> valid_ref project st.
Proof.
  destruct project as [p|]; simpl; [|trivial].
  destruct (objects st !! p) eqn:E; [|discriminate].
  intros _. eapply lookup_lt_Some. exact E.
Qed.

Lemma od_get_set_other {V} (k k' : string) (v v' : V) (d : list (string * V)) :
  od_get k d = None -> od_get k' d = Some v' -> od_get k' (od_set k v d) = Some v'.
Proof.
  intros Hk Hk'. rewrite od_get_set_ne; [exact Hk'|]. intros ->. congruence.
Qed.

Lemma add_child_grows project name st :
  valid_ref project st ->
  od_get name (projects_at project st) = None ->
  grows st (add_child project name st).
Proof.
  intros Hv Hnone. split; [rewrite length_add_child; lia|].
  intros c name' a Hget.
  destruct (decide (c = project)) as [->|Hne].
  - rewrite projects_at_add_child_same by assumption.
    now apply od_get_set_other.
  - rewrite projects_at_add_child_other; [assumption|assumption|].
    eapply od_get_valid. exact Hget.
Qed.

Lemma add_child_closed project name st :
  valid_ref project st -> closed st -> closed (add_child project name st).
Proof.
  intros Hv Hc c name' a Hget. rewrite length_add_child.
  destruct (decide (c = project)) as [->|Hne].
  - rewrite projects_at_add_child_same in Hget by assumption.
    destruct (decide (name = name')) as [->|Hn].
    + rewrite od_get_set_eq in Hget. injection Hget as <-. lia.
    + rewrite od_get_set_ne in Hget by assumption.
      apply Hc in Hget. lia.
  - destruct c as [x|].
    + destruct (decide (x = length (objects st))) as [->|Hx].
      * unfold add_child in Hget. simpl in Hget.
        destruct project as [p|]; simpl in *.
        -- rewrite list_lookup_alter_ne in Hget by lia.
           rewrite list_lookup_middle in Hget by reflexivity. discriminate.
        -- rewrite list_lookup_middle in Hget by reflexivity. discriminate.
      * destruct (decide (x < length (objects st))).
        -- rewrite projects_at_add_child_other in Hget by (simpl; assumption).
           apply Hc in Hget. lia.
        -- assert (E : objects (add_child project name st) !! x = None).
           { apply lookup_ge_None. rewrite length_add_child. lia. }
           simpl in Hget. rewrite E in Hget. discriminate.
    + rewrite projects_at_add_child_other in Hget by (simpl; trivial).
      apply Hc in Hget. lia.
Qed.

Lemma project_ref_grows (names : list string) : forall project st,
  closed st -> valid_ref project st ->
  grows st (snd (project_ref names project st))
  /\ closed (snd (project_ref names project st))
  /\ valid_ref (fst (project_ref names project st)) (snd (project_ref names project st)).
Proof.
  induction names as [|name rest IH]; intros project st Hc Hv.
  - simpl. split; [apply grows_refl|]. split; assumption.
  - rewrite project_ref_cons.
    destruct (od_get name (projects_at project st)) as [child|] eqn:Hget.
    + apply IH; [assumption|]. simpl. eapply Hc. exact Hget.
    + destruct (IH (Some (length (objects st))) (add_child project name st))
        as (Hg & Hc' & Hv').
      * now apply add_child_closed.
      * simpl. rewrite length_add_child. lia.
      * split; [|split; assumption].
        eapply grows_trans; [|exact Hg]. now apply add_child_grows.
Qed.

Lemma project_ref_again (names : list string) : forall project st,
  closed st -> valid_ref project st ->
  project_ref names project (snd (project_ref names project st))
  = project_ref names project st.
Proof.
  induction names as [|name rest IH]; intros project st Hc Hv.
  - reflexivity.
  - rewrite (project_ref_cons name rest project st).
    destruct (od_get name (projects_at project st)) as [child|] eqn:Hget.
    + assert (Hvc : valid_ref (Some child) st) by (simpl; eapply Hc; exact Hget).
      destruct (project_ref_grows rest (Some child) st Hc Hvc) as ([_ Hg] & _ & _).
      rewrite project_ref_cons. rewrite (Hg project name child Hget).
      now apply IH.
    + set (st' := add_child project name st).
      assert (Hc' : closed st') by now apply add_child_closed.
      assert (Hvc : valid_ref (Some (length (objects st))) st').
      { simpl. unfold st'. rewrite length_add_child. lia. }
      destruct (project_ref_grows rest (Some (length (objects st))) st' Hc' Hvc)
        as ([_ Hg] & _ & _).
      rewrite project_ref_cons.
      rewrite (Hg project name (length (objects st))).
      * now apply IH.
      * unfold st'. rewrite projects_at_add_child_same by assumption.
        apply od_get_set_eq.
Qed.

(** ** Resolving a project *)

Lemma str_ltb_asym (a b : string) : str_ltb a b = true -> str_ltb b a = false.
Proof.
  unfold str_ltb, String.ltb. rewrite (String.compare_antisym a b).
  now destruct (String.compare b a).
Qed.

Lemma projects_eq (w : Watson) :
  projects w
  = Ok (map snd (sort_pairs str_ltb
                   (map (keyed (fun s => s)) (get_projects (root w) "")))).
Proof. unfold projects. now apply sorted_eq. Qed.

(** C8: resolving a name a second time returns the project the first call
    returned and changes nothing; the first call hands back the project the
    names lead to, or a new empty one, leaves every project that is not on
    the way to it as it was (the other sub-projects of its ancestors among
    them) and the frames of every project as they were; on the empty tree,
    "a/b" creates "a" and "a/b", empty, and [projects] then lists them in
    order.  [projects] always is an ordered rearrangement of the names
    [get_projects] lists.  On the objects, where a project is named by its
    address, the second call returns the address the first returned and
    leaves the store as it found it. *)
Theorem project_resolve (name : string) (w : Watson) :
  project name (fst (project name w)) = project name w
  /\ node_at (split slash name) (root (fst (project name w)))
     = Some (snd (project name w))
  /\ snd (project name w)
     = default empty_project (node_at (split slash name) (root w))
  /\ (forall q, ~ q `prefix_of` split slash name ->
        node_at q (root (fst (project name w))) = node_at q (root w))
  /\ (forall q, frames_at q (root (fst (project name w))) = frames_at q (root w))
  /\ _current (fst (project name w)) = _current w
  /\ project "a/b" empty_watson
     = ({| tree := [("a", Node [] [("b", Node [] [])])]; _current := None |},
        Node [] [])
  /\ projects (fst (project "a/b" empty_watson)) = Ok ["a"; "a/b"]
  /\ (exists l, projects w = Ok l
        /\ Permutation l (get_projects (root w) "")
        /\ Sorted (fun a b => str_ltb b a = false) l)
  /\ (forall st, closed st ->
        project_ref (split slash name) None
          (snd (project_ref (split slash name) None st))
        = project_ref (split slash name) None st)
  /\ project_ref (split slash "a/b") None empty_forest
     = (Some 1,
        {| objects := [ {| po_frames := []; po_projects := [("b", 1)] |};
                        {| po_frames := []; po_projects := [] |} ];
           top := [("a", 0)] |}).
Proof.
  assert (Hroot := root_project name w).
  assert (Hwalk : project name w
                  = ({| tree := projects_of (fst (project_walk (fun m => m) (split slash name) (root w)));
                        _current := _current w |},
                     snd (project_walk (fun m => m) (split slash name) (root w)))).
  { unfold project. now destruct (project_walk _ _ _). }
  refine (conj _ (conj _ (conj _ (conj _ (conj _ (conj _ (conj _ (conj _ (conj _ (conj _ _)))))))))).
  - unfold project at 1. rewrite Hroot, project_walk_again, Hwalk.
    now destruct (project_walk _ _ _).
  - rewrite Hroot, Hwalk. cbn [snd]. apply node_at_project_walk.
  - rewrite Hwalk. cbn [snd]. apply (project_walk_reached (fun m => m)).
  - intros q Hq. rewrite Hroot. now apply node_at_project_walk_id.
  - intros q. rewrite Hroot.
    destruct (decide (q `prefix_of` split slash name)) as [[r Hr]|Hq].
    + destruct r as [|x r].
      * rewrite app_nil_r in Hr. subst q. unfold frames_at.
        rewrite node_at_project_walk, (project_walk_reached (fun m => m)).
        now destruct (node_at (split slash name) (root w)).
      * rewrite Hr. now apply frames_at_project_walk_above.
    + unfold frames_at. now rewrite node_at_project_walk_id.
  - now rewrite Hwalk.
  - reflexivity.
  - reflexivity.
  - eexists. split; [apply projects_eq|]. split.
    + apply sorted_perm.
    + pose proof (sort_pairs_Sorted str_ltb str_ltb_asym
                    (map (keyed (fun s => s)) (get_projects (root w) ""))) as Hs.
      rewrite (sort_pairs_keyed str_ltb (fun s => s)) in Hs.
      remember (map snd _) as l eqn:El. clear El.
      induction l as [|a l IH]; [constructor|].
      simpl in Hs. apply Sorted_inv in Hs as [Hs Hhd].
      constructor; [now apply IH|].
      destruct l as [|b l]; constructor.
      inversion Hhd; subst. assumption.
  - intros st Hclosed. now apply project_ref_again.
  - reflexivity.
Qed.

Lemma project_resolve_witness :
  node_at ["work"; "old"] (root (fst (project "work/doc/api" busy_watson)))
  = node_at ["work"; "old"] (root busy_watson)
  /\ node_at ["home"] (root (fst (project "work/doc/api" busy_watson)))
     = node_at ["home"] (root busy_watson)
  /\ project_ref ["work"; "doc"; "api"] None
       (snd (project_ref ["work"; "doc"; "api"] None busy_forest))
     = project_ref ["work"; "doc"; "api"] None busy_forest.
Proof.
  destruct (project_resolve "work/doc/api" busy_watson)
    as (_ & _ & _ & H & _ & _ & _ & _ & _ & Href & _).
  split; [|split].
  - apply H; vm_compute; intros [k Hk]; discriminate.
  - apply H; vm_compute; intros [k Hk]; discriminate.
  - apply (Href busy_forest).
    intros [[|[|[|a]]]|] name a' Hget; vm_compute in Hget |- *;
      repeat match type of Hget with
             | (if ?b then _ else _) = _ => destruct b
             end;
      inversion Hget; subst; lia.
Defined.

(** ** The list of all frames *)

Lemma arrow_ltb_rank (a b : Arrow) : arrow_ltb a b = (micros a <? micros b)%Z.
Proof. reflexivity. Qed.

Lemma strongly_sorted_keyed {A K} (R : K * A -> K * A -> Prop) (k : A -> K)
    (l : list A) :
  StronglySorted R (map (keyed k) l) ->
  StronglySorted (fun a b => R (keyed k a) (keyed k b)) l.
Proof.
  induction l as [|x l IH]; intros Hs; [constructor|].
  simpl in Hs. apply StronglySorted_inv in Hs as [Hs Hall].
  constructor; [now apply IH|].
  apply List.Forall_forall. intros y Hy.
  apply (proj1 (List.Forall_forall _ _) Hall). now apply in_map.
Qed.

Lemma filter_keyed {A K} (p : K -> bool) (k : A -> K) (l : list A) :
  map snd (List.filter (fun x => p (fst x)) (map (keyed k) l))
  = List.filter (fun x => p (k x)) l.
Proof.
  induction l as [|x l IH]; [reflexivity|].
  simpl. destruct (p (k x)); simpl; now rewrite IH.
Qed.

(** C9: [frames] returns a rearrangement of what the traversal collects,
    which is every frame of every project below the root with the names
    that lead to the project joined by '/' as its ['project'], ordered by
    start, the frames of equal start in the order of the traversal: the
    sub-projects in the order of their dict, each with its own frames in the
    order of their list and then the frames below it. *)
Theorem frames_sorted_by_start (w : Watson) :
  exists fs,
    frames w = Ok fs
    /\ Permutation fs (get_frames (root w) "")
    /\ (forall f,
          In f fs
          <-> exists names m raw,
                names <> [] /\ reaches (root w) names m /\ In raw (frames_of m)
                /\ f = flat_frame (join_path names) raw)
    /\ (forall project raw,
          start_micros (flat_frame project raw) = (rf_start raw * 1000000)%Z
          /\ flat_frame project raw !! "project" = Some (PStr project))
    /\ StronglySorted (fun a b => (start_micros a <= start_micros b)%Z) fs
    /\ (forall c,
          List.filter (fun f => (start_micros f =? c)%Z) fs
          = List.filter (fun f => (start_micros f =? c)%Z) (get_frames (root w) ""))
    /\ (forall fs name child rest ancestors,
          get_frames (Node fs ((name, child) :: rest)) ancestors
          = map (flat_frame (ancestors +:+ name)) (frames_of child)
            ++ get_frames child (ancestors +:+ name +:+ "/")
            ++ get_frames (Node fs rest) ancestors).
Proof.
  eexists. split; [apply frames_eq|].
  set (l := get_frames (root w) "").
  assert (Hperm : Permutation (map snd (sort_pairs arrow_ltb (map (keyed start_arrow) l))) l)
    by apply sorted_perm.
  refine (conj Hperm (conj _ (conj _ (conj _ (conj _ _))))).
  - intros f. rewrite <- (in_get_frames (root w) "" f). fold l.
    split; intros Hf.
    + now apply (Permutation_in _ Hperm).
    + now apply (Permutation_in _ (Permutation_sym Hperm)).
  - intros project raw. split; reflexivity.
  - pose proof (sort_pairs_strongly arrow_ltb micros arrow_ltb_rank
                  (map (keyed start_arrow) l)) as Hs.
    rewrite (sort_pairs_keyed arrow_ltb start_arrow) in Hs.
    apply strongly_sorted_keyed in Hs. exact Hs.
  - intros c. unfold start_micros.
    rewrite <- (filter_keyed (fun a => (micros a =? c)%Z) start_arrow l).
    rewrite <- (sort_pairs_stable arrow_ltb micros arrow_ltb_rank c).
    rewrite <- (filter_keyed (fun a => (micros a =? c)%Z) start_arrow (map snd _)).
    now rewrite <- (sort_pairs_keyed arrow_ltb start_arrow).
  - intros. apply get_frames_cons.
Qed.

(** The frames of the running store, in order: the two frames that start
    at 10 stay in the order of the traversal. *)
Lemma frames_sorted_by_start_witness :
  exists fs, frames busy_watson = Ok fs
    /\ In (flat_frame "work/doc"
             {| rf_start := 10; rf_stop := 15; rf_message := None; rf_id := None |}) fs
    /\ map start_micros fs = [5000000; 10000000; 10000000; 50000000]%Z
    /\ map (fun f => f !! "project") fs
       = [Some (PStr "home"); Some (PStr "work"); Some (PStr "work/doc");
          Some (PStr "work")].
Proof.
  destruct (frames_sorted_by_start busy_watson) as (fs & Hfs & _ & Hin & _).
  exists fs. split; [exact Hfs|]. split.
  - apply Hin. exists ["work"; "doc"], (Node [MkRaw 10 15 None None] []), (MkRaw 10 15 None None).
    split; [discriminate|]. split; [|split; [now left|reflexivity]].
    apply reaches_node_at. reflexivity.
  - assert (E : Ok fs = frames busy_watson) by (symmetry; exact Hfs).
    vm_compute in E. injection E as ->. split; reflexivity.
Defined.

(** C10: every dict [frames] returns has the keys ['project'], ['id'],
    ['start'] and ['stop'] and no other, so no ['message']; the list does
    not depend on the messages at all, and neither do the dicts [push]
    builds from it, whose keys are ['id'], ['start'], ['stop'] and
    ['project']; the message [add_frame] was given stays in the frame of the
    tree, which [dump] hands over whole. *)
Theorem frames_drop_message (w : Watson) :
  exists fs items,
    frames w = Ok fs
    /\ Forall (fun f => dom f = flat_keys /\ f !! "message" = None) fs
    /\ frames {| tree := projects_of (without_messages (root w));
                 _current := _current w |} = Ok fs
    /\ mapM push_item fs = Ok items
    /\ Forall (fun item => dom item = flat_keys /\ item !! "message" = None) items
    /\ c_projects (dump w) = Some (tree w)
    /\ (forall project start stop c m,
          let w' := add_frame project start stop (Some (String c m)) w in
          last (frames_at (split slash project) (root w'))
          = Some {| rf_start := _format_date start; rf_stop := _format_date stop;
                    rf_message := Some (String c m); rf_id := None |}
          /\ c_projects (dump w') = Some (tree w')).
Proof.
  set (l := get_frames (root w) "").
  assert (Hall : forall f, In f (map snd (sort_pairs arrow_ltb (map (keyed start_arrow) l)))
                           -> exists project raw, f = flat_frame project raw).
  { intros f Hf. apply (Permutation_in _ (sorted_perm arrow_ltb start_arrow l)) in Hf.
    now apply get_frames_flat in Hf. }
  eexists _, _. split; [apply frames_eq|]. fold l.
  split; [|split; [|split; [|split; [|split]]]].
  - apply Forall_forall. intros f Hf. apply list_elem_of_In in Hf.
    apply Hall in Hf as (project & raw & ->).
    split; [apply flat_frame_keys|reflexivity].
  - rewrite frames_eq. unfold root at 1. cbn [tree].
    change (Node [] (projects_of (without_messages (root w))))
      with (without_messages (root w)).
    now rewrite get_frames_without_messages.
  - apply (mapM_ok push_item item_of).
    intros f Hf. apply Hall in Hf as (project & raw & ->). reflexivity.
  - apply Forall_forall. intros item Hitem.
    apply list_elem_of_In, in_map_iff in Hitem as (f & <- & Hf).
    split; [|reflexivity].
    unfold item_of, flat_keys. rewrite !dom_insert_L, dom_singleton_L. set_solver.
  - unfold dump. now destruct (_current w).
  - intros project start stop c m w'. split.
    + unfold w'. rewrite frames_at_add_frame, decide_True by reflexivity.
      now rewrite last_snoc.
    + unfold dump. now destruct (_current w').
Qed.

(** ** Running [push] *)

Lemma M_bind_run {A B} (m : M A) (k : A -> M B) (w : world) :
  (m ≫= k) w = match m w with
               | (Ok a, w') => k a w'
               | (Raise e, w') => (Raise e, w')
               end.
Proof. reflexivity. Qed.

Lemma mapM_cons_run {A B} (f : A -> M B) (x : A) (l : list A) (w : world) :
  mapM f (x :: l) w
  = match f x w with
    | (Ok y, w1) =>
        match mapM f l w1 with
        | (Ok ys, w2) => (Ok (y :: ys), w2)
        | (Raise e, w2) => (Raise e, w2)
        end
    | (Raise e, w1) => (Raise e, w1)
    end.
Proof. reflexivity. Qed.

Lemma alloc_items_run (fs : list pydict) : forall items w,
  mapM push_item fs = Ok items ->
  mapM (fun f => item ← lift (push_item f); new_dict item) fs w
  = (Ok (seq (length (heap w)) (length items)),
     {| heap := heap w ++ items; sent := sent w |}).
Proof.
  induction fs as [|f fs IH]; intros items w Hitems.
  - injection Hitems as <-. simpl. rewrite app_nil_r. now destruct w.
  - simpl in Hitems. destruct (push_item f) as [item|] eqn:Hf; [|discriminate].
    simpl in Hitems. destruct (mapM push_item fs) as [rest|] eqn:Hrest; [|discriminate].
    injection Hitems as <-.
    rewrite mapM_cons_run. rewrite M_bind_run. unfold lift at 1. rewrite Hf.
    unfold new_dict at 1. rewrite (IH rest) by reflexivity.
    simpl. rewrite length_app. simpl. rewrite <- app_assoc. simpl.
    repeat f_equal. lia.
Qed.

Lemma id_is_none_run (l : loc) (w : world) (d : pydict) (v : pyval) :
  heap w !! l = Some d -> d !! "id" = Some v ->
  id_is_none l w = (Ok (is_none v), w) /\ none_at (heap w) l = is_none v.
Proof.
  intros Hl Hv. unfold id_is_none, none_at, dict_get.
  rewrite M_bind_run. unfold read at 1. rewrite Hl.
  rewrite M_bind_run. unfold lift, getitem. rewrite Hv. now split.
Qed.

Lemma filterM_id_is_none_run (locs : list loc) (w : world) :
  Forall (has_id (heap w)) locs ->
  filterM id_is_none locs w = (Ok (List.filter (none_at (heap w)) locs), w).
Proof.
  induction 1 as [|l locs (d & v & Hl & Hv) _ IH]; [reflexivity|].
  cbn [filterM List.filter]. rewrite M_bind_run.
  destruct (id_is_none_run l w d v Hl Hv) as [-> ->].
  rewrite M_bind_run, IH. reflexivity.
Qed.

Lemma filterM_id_is_some_run (locs : list loc) (w : world) :
  Forall (has_id (heap w)) locs ->
  filterM (fun l => b ← id_is_none l; mret (negb b)) locs w
  = (Ok (List.filter (fun l => negb (none_at (heap w) l)) locs), w).
Proof.
  induction 1 as [|l locs (d & v & Hl & Hv) _ IH]; [reflexivity|].
  cbn [filterM List.filter]. rewrite !M_bind_run.
  destruct (id_is_none_run l w d v Hl Hv) as [-> ->].
  unfold mret at 1, M_ret at 1. rewrite M_bind_run, IH.
  cbn. now destruct (is_none v).
Qed.

Lemma mapM_read_run (locs : list loc) (data : list pydict) (w : world) :
  Forall2 (fun l d => heap w !! l = Some d) locs data ->
  mapM read locs w = (Ok data, w).
Proof.
  induction 1 as [|l d locs data Hl _ IH]; [reflexivity|].
  rewrite mapM_cons_run. unfold read at 1. rewrite Hl, IH. reflexivity.
Qed.

Lemma lookup_allocated (h items : list pydict) (p : pydict -> bool) :
  Forall2 (fun l d => (h ++ items) !! l = Some d)
    (List.filter (fun l => match (h ++ items) !! l with
                           | Some d => p d
                           | None => false
                           end) (seq (length h) (length items)))
    (List.filter p items).
Proof.
  revert h. induction items as [|x items IH]; intros h; [constructor|].
  cbn [length seq List.filter].
  assert (Hx : (h ++ x :: items) !! length h = Some x) by apply list_lookup_middle, eq_refl.
  rewrite Hx.
  specialize (IH (h ++ [x])). rewrite <- app_assoc, length_app in IH.
  simpl in IH. replace (length h + 1) with (S (length h)) in IH by lia.
  destruct (p x); [constructor; assumption|assumption].
Qed.

Lemma assign_id_run (l : loc) (i : pyval) (w : world) (d : pydict) :
  heap w !! l = Some d -> is_Some (d !! "project") ->
  assign_id (l, i) w
  = (Ok tt, {| heap := <[ l := delete "project" (<[ "id" := i ]> d) ]> (heap w);
               sent := sent w |}).
Proof.
  intros Hl [v Hv]. unfold assign_id. rewrite M_bind_run.
  unfold setitem at 1. rewrite Hl.
  unfold delitem. cbn [heap sent].
  rewrite list_lookup_insert_eq by (eapply lookup_lt_Some; eassumption).
  rewrite lookup_insert_ne by discriminate. rewrite Hv.
  now rewrite list_insert_insert_eq.
Qed.

Lemma forM_assign_run (pairs : list (loc * pyval)) : forall w,
  NoDup (map fst pairs) ->
  Forall (has_project (heap w)) (map fst pairs) ->
  exists h',
    forM_ pairs assign_id w = (Ok tt, {| heap := h'; sent := sent w |})
    /\ length h' = length (heap w)
    /\ (forall l, ~ In l (map fst pairs) -> h' !! l = heap w !! l).
Proof.
  induction pairs as [|[l i] pairs IH]; intros w Hnd Hall.
  - exists (heap w). destruct w. repeat split; reflexivity.
  - simpl in Hnd, Hall. apply NoDup_cons in Hnd as [Hl Hnd].
    apply Forall_cons in Hall as [(d & Hd & Hp) Hall].
    cbn [forM_]. rewrite M_bind_run, (assign_id_run l i w d Hd Hp).
    set (w1 := {| heap := <[ l := delete "project" (<[ "id" := i ]> d) ]> (heap w);
                  sent := sent w |}).
    destruct (IH w1 Hnd) as (h' & Hrun & Hlen & Hother).
    + apply Forall_forall. intros l' Hl'.
      rewrite Forall_forall in Hall. destruct (Hall l' Hl') as (d' & Hd' & Hp').
      exists d'. split; [|assumption]. unfold w1; cbn [heap].
      rewrite list_lookup_insert_ne by (intros ->; contradiction). assumption.
    + exists h'. cbn [sent] in Hrun. split; [exact Hrun|].
      split.
      * rewrite Hlen. unfold w1; cbn [heap]. apply length_insert.
      * intros l' Hl'. rewrite Hother.
        -- unfold w1; cbn [heap]. apply list_lookup_insert_ne.
           intros ->. apply Hl'. now left.
        -- intros Hin. apply Hl'. now right.
Qed.

Lemma fst_zip_take {A B} (l : list A) (k : list B) :
  map fst (zip l k) = take (length k) l.
Proof.
  revert k. induction l as [|x l IH]; intros [|y k]; simpl; try reflexivity.
  now rewrite IH.
Qed.

Lemma push_item_id (f item : pydict) :
  push_item f = Ok item ->
  item !! "id" = Some (dict_get f "id") /\ is_Some (item !! "project").
Proof.
  unfold push_item. intros H.
  destruct (getitem f "start") as [v1|]; [|discriminate]. simpl in H.
  destruct (as_arrow v1) as [a1|]; [|discriminate]. simpl in H.
  destruct (getitem f "stop") as [v2|]; [|discriminate]. simpl in H.
  destruct (as_arrow v2) as [a2|]; [|discriminate]. simpl in H.
  destruct (getitem f "project") as [v3|]; [|discriminate]. simpl in H.
  destruct (as_str v3) as [a3|]; [|discriminate]. simpl in H.
  injection H as <-. split; [reflexivity|]. eexists. reflexivity.
Qed.

Lemma mapM_push_item_Forall (fs items : list pydict) :
  mapM push_item fs = Ok items ->
  Forall (fun item => is_Some (item !! "id") /\ is_Some (item !! "project")) items.
Proof.
  revert items. induction fs as [|f fs IH]; intros items H.
  - injection H as <-. constructor.
  - simpl in H. destruct (push_item f) as [item|] eqn:Hf; [|discriminate].
    simpl in H. destruct (mapM push_item fs) as [rest|]; [|discriminate].
    injection H as <-. constructor; [|now apply IH].
    apply push_item_id in Hf as [-> ?]. split; [eexists; reflexivity|assumption].
Qed.

Lemma allocated_have_keys (h fs items : list pydict) (l : loc) :
  mapM push_item fs = Ok items ->
  In l (seq (length h) (length items)) ->
  has_id (h ++ items) l /\ has_project (h ++ items) l.
Proof.
  intros Hitems Hl. apply in_seq in Hl as [Hlo Hhi].
  apply mapM_push_item_Forall in Hitems.
  destruct (lookup_lt_is_Some_2 items (l - length h) ltac:(lia)) as [d Hd].
  assert (Hlook : (h ++ items) !! l = Some d).
  { rewrite lookup_app_r by lia. exact Hd. }
  rewrite Forall_forall in Hitems.
  destruct (Hitems d (list_elem_of_lookup_2 _ _ _ Hd)) as [[v Hv] Hp].
  split; [exists d, v|exists d]; auto.
Qed.

Lemma none_at_id_is_none_in (h : list pydict) (l : loc) :
  none_at h l = match h !! l with
                | Some d => id_is_none_in d
                | None => false
                end.
Proof. reflexivity. Qed.

Lemma batch_outcome_cons server mk expected d data :
  batch_outcome server mk expected (d :: data)
  = outcome server (mk (d :: data)) expected.
Proof. reflexivity. Qed.

Lemma NoDup_list_filter {A} (f : A -> bool) (l : list A) :
  NoDup l -> NoDup (List.filter f l).
Proof.
  induction 1 as [|x l Hx Hl IH]; simpl; [constructor|].
  destruct (f x); [|assumption].
  constructor; [|assumption].
  intros Hin. apply Hx. apply list_elem_of_In in Hin.
  apply filter_In in Hin as [Hin _]. now apply list_elem_of_In.
Qed.

Lemma In_take {A} (x : A) (n : nat) (l : list A) : In x (take n l) -> In x l.
Proof.
  revert n. induction l as [|y l IH]; intros [|n]; simpl; try tauto.
  intros [->|H]; [now left|right; eauto].
Qed.

Lemma new_frames_news (h items : list pydict) :
  Forall2 (fun l d => (h ++ items) !! l = Some d)
    (List.filter (none_at (h ++ items)) (seq (length h) (length items)))
    (List.filter id_is_none_in items).
Proof. apply (lookup_allocated h items id_is_none_in). Qed.

Lemma old_frames_olds (h items : list pydict) :
  Forall2 (fun l d => (h ++ items) !! l = Some d)
    (List.filter (fun l => negb (none_at (h ++ items) l)) (seq (length h) (length items)))
    (List.filter (fun d => negb (id_is_none_in d)) items).
Proof.
  pose proof (lookup_allocated h items (fun d => negb (id_is_none_in d))) as H.
  erewrite filter_ext_in; [exact H|].
  intros l Hl. cbn beta. rewrite none_at_id_is_none_in.
  destruct ((h ++ items) !! l) eqn:E; [reflexivity|].
  apply in_seq in Hl. apply lookup_ge_None in E. rewrite length_app in E. lia.
Qed.

Lemma create_frames_run (server : remote) (dest authorization : string)
    (h fs items : list pydict) (s : list request) :
  mapM push_item fs = Ok items ->
  let news := List.filter id_is_none_in items in
  let new_frames :=
    List.filter (none_at (h ++ items)) (seq (length h) (length items)) in
  exists h2,
    create_frames server dest authorization new_frames
      {| heap := h ++ items; sent := s |}
    = (batch_outcome server (Post dest authorization) 201 news,
       {| heap := h2; sent := s ++ batch_sent (Post dest authorization) news |})
    /\ length h2 = length (h ++ items)
    /\ (forall l, ~ In l new_frames -> h2 !! l = (h ++ items) !! l).
Proof.
  intros Hitems news new_frames.
  pose proof (new_frames_news h items) as Hnews. fold news new_frames in Hnews.
  assert (Hnd : NoDup new_frames) by apply NoDup_list_filter, NoDup_seq.
  assert (Hkeys : forall l, In l new_frames -> has_project (h ++ items) l).
  { intros l Hl. apply filter_In in Hl as [Hl _].
    now apply (allocated_have_keys h fs items l Hitems). }
  clearbody news new_frames.
  unfold create_frames.
  destruct Hnews as [|l d nl data Hl Hrest].
  - exists (h ++ items). simpl. rewrite app_nil_r. repeat split; reflexivity.
  - rewrite M_bind_run, (mapM_read_run (l :: nl) (d :: data)) by (now constructor).
    rewrite M_bind_run. unfold send at 1. cbn [heap sent].
    rewrite batch_outcome_cons. unfold outcome, batch_sent.
    destruct (server (Post dest authorization (d :: data))) as [r|].
    + destruct (negb (status_code r =? 201)%Z).
      * exists (h ++ items). repeat split; reflexivity.
      * destruct (forM_assign_run (zip (l :: nl) (json r))
                    {| heap := h ++ items; sent := s ++ [Post dest authorization (d :: data)] |})
          as (h2 & Hrun & Hlen & Hother).
        -- rewrite fst_zip_take.
           apply (sublist_NoDup (take (length (json r)) (l :: nl)) (l :: nl));
             [exact Hnd|apply sublist_take].
        -- rewrite fst_zip_take. apply Forall_forall. intros l' Hl'.
           apply Hkeys. apply list_elem_of_In in Hl'. eapply In_take. exact Hl'.
        -- exists h2. cbn [heap sent] in *. split; [exact Hrun|]. split; [exact Hlen|].
           intros l' Hl'. apply Hother. rewrite fst_zip_take.
           intros Hin. apply Hl'. eapply In_take. exact Hin.
    + exists (h ++ items). repeat split; reflexivity.
Qed.

Lemma update_frames_run (server : remote) (dest authorization : string)
    (existing_frames : list loc) (olds : list pydict) (w : world) :
  Forall2 (fun l d => heap w !! l = Some d) existing_frames olds ->
  update_frames server dest authorization existing_frames w
  = (batch_outcome server (Put dest authorization) 200 olds,
     {| heap := heap w; sent := sent w ++ batch_sent (Put dest authorization) olds |}).
Proof.
  intros Holds. unfold update_frames.
  destruct Holds as [|l d nl data Hl Hrest].
  - simpl. rewrite app_nil_r. now destruct w.
  - rewrite M_bind_run, (mapM_read_run (l :: nl) (d :: data)) by (now constructor).
    rewrite M_bind_run. unfold send at 1.
    rewrite batch_outcome_cons. unfold outcome, batch_sent.
    destruct (server (Put dest authorization (d :: data))) as [r|]; [|reflexivity].
    now destruct (negb (status_code r =? 200)%Z).
Qed.

Lemma Forall2_impl_In {A B} (P Q : A -> B -> Prop) (l : list A) (k : list B) :
  Forall2 P l k -> (forall x y, In x l -> P x y -> Q x y) -> Forall2 Q l k.
Proof.
  induction 1 as [|x y l k Hxy _ IH]; intros HPQ; constructor.
  - apply HPQ; [now left|assumption].
  - apply IH. intros x' y' Hin. apply HPQ. now right.
Qed.

Lemma prefix_of_unchanged {A} (h ext h2 : list A) :
  length h2 = length (h ++ ext) ->
  (forall l, l < length h -> h2 !! l = (h ++ ext) !! l) ->
  h `prefix_of` h2.
Proof.
  intros Hlen Hsame. exists (drop (length h) h2).
  rewrite <- (take_drop (length h) h2) at 1. f_equal.
  apply list_eq. intros i. destruct (decide (i < length h)) as [Hi|Hi].
  - rewrite lookup_take_lt by exact Hi. rewrite Hsame by exact Hi.
    now rewrite lookup_app_l.
  - rewrite lookup_take_ge by lia. symmetry. apply lookup_ge_None. lia.
Qed.

Lemma push_run (url token : string) (server : remote) (force : bool)
    (t : list (string * node loc)) (h : list pydict) (s : list request)
    (t' : node raw_frame) (fs items : list pydict) :
  deref h (Node [] t) = Ok t' ->
  frames {| tree := projects_of t'; _current := None |} = Ok fs ->
  mapM push_item fs = Ok items ->
  let dest := url +:+ "/frames/" in
  let authorization := "Token " +:+ token in
  let news := List.filter id_is_none_in items in
  let olds := if force then List.filter (fun d => negb (id_is_none_in d)) items
              else [] in
  let new_frames :=
    List.filter (none_at (h ++ items)) (seq (length h) (length items)) in
  exists h',
    push (Some (url, token)) server force t {| heap := h; sent := s |}
    = (_ ← batch_outcome server (Post dest authorization) 201 news;
       _ ← batch_outcome server (Put dest authorization) 200 olds;
       Ok new_frames,
       {| heap := h';
          sent := s ++ batch_sent (Post dest authorization) news
                    ++ match batch_outcome server (Post dest authorization) 201 news with
                       | Ok _ => batch_sent (Put dest authorization) olds
                       | Raise _ => []
                       end |})
    /\ h `prefix_of` h'
    /\ length new_frames = length news.
Proof.
  intros Hderef Hfs Hitems dest authorization news olds new_frames.
  assert (Hkeys : Forall (has_id (h ++ items)) (seq (length h) (length items))).
  { apply Forall_forall. intros l Hl. apply list_elem_of_In in Hl.
    now apply (allocated_have_keys h fs items l Hitems). }
  unfold push. rewrite M_bind_run. cbn [mret M_ret fst snd].
  rewrite M_bind_run. unfold frames_h at 1. cbn [heap]. rewrite Hderef.
  cbn [mbind result_bind]. rewrite Hfs.
  rewrite M_bind_run, (alloc_items_run fs items) by exact Hitems. cbn [heap sent].
  rewrite M_bind_run, filterM_id_is_none_run by exact Hkeys. cbn [heap].
  fold new_frames.
  set (existing := if force
                   then List.filter (fun l => negb (none_at (h ++ items) l))
                          (seq (length h) (length items))
                   else []).
  assert (Hexisting :
    (if force
     then filterM (fun l => b ← id_is_none l; mret (negb b)) (seq (length h) (length items))
     else mret [] : M (list loc)) {| heap := h ++ items; sent := s |}
    = (Ok existing, {| heap := h ++ items; sent := s |})).
  { unfold existing. destruct force; [|reflexivity].
    now rewrite filterM_id_is_some_run by exact Hkeys. }
  rewrite M_bind_run, Hexisting. clear Hexisting.
  assert (Holds : Forall2 (fun l d => (h ++ items) !! l = Some d) existing olds).
  { unfold existing, olds. destruct force; [apply old_frames_olds|constructor]. }
  assert (Hdisjoint : forall l, In l existing -> ~ In l new_frames).
  { unfold existing, new_frames. destruct force; [|intros l []].
    intros l Hl Hn. apply filter_In in Hl as [_ Hl]. apply filter_In in Hn as [_ Hn].
    rewrite Hn in Hl. discriminate. }
  destruct (create_frames_run server dest authorization h fs items s Hitems)
    as (h2 & Hrun & Hlen & Hother).
  fold news new_frames in Hrun, Hother.
  assert (Hprefix : h `prefix_of` h2).
  { apply (prefix_of_unchanged h items h2 Hlen). intros l Hl. apply Hother.
    intros Hin. apply filter_In in Hin as [Hin _]. apply in_seq in Hin. lia. }
  assert (Hcount : length new_frames = length news).
  { apply (Forall2_length _ _ _ (new_frames_news h items)). }
  change (url +:+ "/frames/") with dest.
  change ("Token " +:+ token) with authorization.
  rewrite M_bind_run, Hrun.
  destruct (batch_outcome server (Post dest authorization) 201 news) as [[]|e].
  - rewrite M_bind_run.
    rewrite (update_frames_run server dest authorization existing olds).
    + cbn [heap sent mbind result_bind]. exists h2.
      rewrite <- app_assoc.
      destruct (batch_outcome server (Put dest authorization) 200 olds) as [[]|e];
        repeat split; assumption || reflexivity.
    + cbn [heap]. apply (Forall2_impl_In _ _ _ _ Holds).
      intros l d Hl Hd. rewrite Hother; [exact Hd|now apply Hdisjoint].
  - exists h2. rewrite app_nil_r. repeat split; assumption || reflexivity.
Qed.

(** ** What [push] leaves in the store *)

Lemma deref_unfold (h : list pydict) (fs : list loc) (ps : list (string * node loc)) :
  deref h (Node fs ps)
  = (fs' ← mapM (raw_at h) fs;
     ps' ← mapM (fun '(name, child) => c ← deref h child; Ok (name, c)) ps;
     Ok (Node fs' ps')).
Proof. reflexivity. Qed.

Lemma mapM_result_ext {A B} (f g : A -> result B) (l : list A) :
  (forall x y, In x l -> f x = Ok y -> g x = Ok y) ->
  forall ys, mapM f l = Ok ys -> mapM g l = Ok ys.
Proof.
  induction l as [|x l IH]; intros Hfg ys H; [exact H|].
  simpl in *. destruct (f x) as [y|] eqn:Hx; [|discriminate].
  rewrite (Hfg x y (or_introl eq_refl) Hx). simpl in *.
  destruct (mapM f l) as [rest|] eqn:Hl; [|discriminate].
  rewrite (IH (fun x' y' Hin => Hfg x' y' (or_intror Hin)) rest eq_refl).
  exact H.
Qed.

Lemma raw_at_prefix (h h' : list pydict) (l : loc) (r : raw_frame) :
  h `prefix_of` h' -> raw_at h l = Ok r -> raw_at h' l = Ok r.
Proof.
  intros Hp. unfold raw_at. destruct (h !! l) as [d|] eqn:E; [|discriminate].
  now rewrite (prefix_lookup_Some _ _ _ _ E Hp).
Qed.

(** The records of a store are read the same in every store that extends
    it. *)
Lemma deref_prefix (h h' : list pydict) (n : node loc) :
  h `prefix_of` h' -> forall t', deref h n = Ok t' -> deref h' n = Ok t'.
Proof.
  intros Hp. induction n as [fs ps IH] using node_ind. intros t'.
  rewrite !deref_unfold. intros H.
  destruct (mapM (raw_at h) fs) as [fs'|] eqn:Hfs; [|discriminate].
  rewrite (mapM_result_ext (raw_at h) (raw_at h') fs
             (fun l r _ => raw_at_prefix h h' l r Hp) fs' Hfs).
  simpl in *.
  destruct (mapM _ ps) as [ps'|] eqn:Hps; [|discriminate].
  erewrite mapM_result_ext; [exact H| |exact Hps].
  intros [name child] [name' c] Hin Hc.
  rewrite List.Forall_forall in IH. specialize (IH _ Hin). simpl in IH, Hc |- *.
  destruct (deref h child) as [c0|] eqn:Hchild; [|discriminate].
  now rewrite (IH c0 eq_refl).
Qed.

Lemma deref_root (h : list pydict) (t : list (string * node loc)) (t' : node raw_frame) :
  deref h (Node [] t) = Ok t' -> t' = Node [] (projects_of t').
Proof.
  rewrite deref_unfold. simpl.
  destruct (mapM _ t) as [ps'|]; [|discriminate]. now intros [= <-].
Qed.

Lemma push_item_flat_frame (project : string) (raw : raw_frame) :
  push_item (flat_frame project raw) = Ok (item_of (flat_frame project raw))
  /\ item_of (flat_frame project raw) = frame_item project raw.
Proof. split; reflexivity. Qed.

Lemma frames_items (w : Watson) :
  exists fs,
    frames w = Ok fs
    /\ mapM push_item fs = Ok (map item_of fs)
    /\ Forall (fun f => exists names m raw,
                 names <> [] /\ reaches (root w) names m /\ In raw (frames_of m)
                 /\ f = flat_frame (join_path names) raw) fs.
Proof.
  eexists. split; [apply frames_eq|].
  assert (Hall : Forall (fun f => exists names m raw,
                   names <> [] /\ reaches (root w) names m /\ In raw (frames_of m)
                   /\ f = flat_frame (join_path names) raw)
                 (map snd (sort_pairs arrow_ltb
                    (map (keyed start_arrow) (get_frames (root w) ""))))).
  { apply List.Forall_forall. intros f Hf.
    apply (Permutation_in _ (sorted_perm arrow_ltb start_arrow _)) in Hf.
    now apply in_get_frames in Hf. }
  split; [|exact Hall].
  apply mapM_ok. intros f Hf.
  rewrite List.Forall_forall in Hall.
  destruct (Hall f Hf) as (names & m & raw & _ & _ & _ & ->). reflexivity.
Qed.

(** [push] changes no object that was in the store before it ran: the
    records of the tree are read after it as before, with or without an
    error, whatever the server answers. *)
Lemma push_keeps_records (config : option (string * string)) (server : remote)
    (force : bool) (t : list (string * node loc)) (h : list pydict)
    (s : list request) (t' : node raw_frame) :
  deref h (Node [] t) = Ok t' ->
  h `prefix_of` heap (snd (push config server force t {| heap := h; sent := s |}))
  /\ deref (heap (snd (push config server force t {| heap := h; sent := s |})))
       (Node [] t) = Ok t'.
Proof.
  intros Hderef.
  assert (Hp : h `prefix_of`
                 heap (snd (push config server force t {| heap := h; sent := s |}))).
  { destruct config as [[url token]|]; [|reflexivity].
    destruct (frames_items {| tree := projects_of t'; _current := None |})
      as (fs & Hfs & Hitems & _).
    destruct (push_run url token server force t h s t' fs (map item_of fs)
                Hderef Hfs Hitems) as (h' & Hrun & Hprefix & _).
    rewrite Hrun. exact Hprefix. }
  split; [exact Hp|]. now apply (deref_prefix h).
Qed.

(** A second [push] without [force] finds the records as the first one
    did, none with an id more: it sends the same creation batch again, and
    when it succeeds it returns as many new frames as the first. *)
Lemma push_creates_again (url token : string) (server : remote)
    (t : list (string * node loc)) (h : list pydict) (s : list request)
    (t' : node raw_frame) :
  deref h (Node [] t) = Ok t' ->
  let config := Some (url, token) in
  let mk := Post (url +:+ "/frames/") ("Token " +:+ token) in
  let first := push config server false t {| heap := h; sent := s |} in
  let second := push config server false t (snd first) in
  exists fs news locs1 locs2,
    frames {| tree := projects_of t'; _current := None |} = Ok fs
    /\ news = List.filter id_is_none_in (map item_of fs)
    /\ fst first = (_ ← batch_outcome server mk 201 news; Ok locs1)
    /\ fst second = (_ ← batch_outcome server mk 201 news; Ok locs2)
    /\ length locs1 = length news /\ length locs2 = length news
    /\ sent (snd first) = s ++ batch_sent mk news
    /\ sent (snd second) = (s ++ batch_sent mk news) ++ batch_sent mk news
    /\ deref (heap (snd first)) (Node [] t) = Ok t'
    /\ deref (heap (snd second)) (Node [] t) = Ok t'.
Proof.
  intros Hderef config mk first second.
  destruct (frames_items {| tree := projects_of t'; _current := None |})
    as (fs & Hfs & Hitems & _).
  destruct (push_run url token server false t h s t' fs (map item_of fs)
              Hderef Hfs Hitems) as (h1 & Hrun1 & Hprefix1 & Hlen1).
  cbv zeta in Hrun1. fold mk config in Hrun1. fold first in Hrun1.
  assert (Hderef1 : deref h1 (Node [] t) = Ok t') by now apply (deref_prefix h).
  set (news := List.filter id_is_none_in (map item_of fs)) in *.
  destruct (push_run url token server false t h1 (s ++ batch_sent mk news) t' fs
              (map item_of fs) Hderef1 Hfs Hitems) as (h2 & Hrun2 & Hprefix2 & Hlen2).
  cbv zeta in Hrun2. fold mk config news in Hrun2.
  assert (Hsent : forall r : result unit,
            batch_sent mk news ++ match r with Ok _ => [] | Raise _ => [] end
            = batch_sent mk news).
  { intros [|]; apply app_nil_r. }
  cbn [batch_sent] in Hrun1, Hrun2. rewrite Hsent in Hrun1, Hrun2.
  assert (Hsecond : second = push config server false t
                               {| heap := h1; sent := s ++ batch_sent mk news |}).
  { unfold second. now rewrite Hrun1. }
  assert (Hdrop : forall (A : Type) (r : result unit) (x : A),
            (_ ← r; _ ← batch_outcome server (Put (url +:+ "/frames/") ("Token " +:+ token)) 200 []; Ok x)
            = (_ ← r; Ok x)).
  { intros A [[]|e] x; reflexivity. }
  rewrite Hdrop in Hrun1, Hrun2.
  eexists fs, news, _, _.
  rewrite Hsecond, Hrun1, Hrun2. cbn [fst snd heap sent].
  repeat split; try reflexivity; try assumption.
  now apply (deref_prefix h1).
Qed.

(** C1, on the store of two records without id and the server that
    numbers what it creates from 100: the first [push] sends both frames
    and returns two new dicts, which hold the ids 100 and 101; the two
    records of the store are as they were, without ['id']; the second
    [push], without [force], finds no id either, sends the same two frames
    again and returns two new frames, not none. *)
Theorem push_twice_creates_twice :
  let first := push crick numbering_server false two_tree
                 {| heap := two_records; sent := [] |} in
  let second := push crick numbering_server false two_tree (snd first) in
  fst first = Ok [2; 3]
  /\ take 2 (heap (snd first)) = two_records
  /\ Forall (fun d : pydict => d !! "id" = None) (take 2 (heap (snd first)))
  /\ (fun d : pydict => d !! "id") <$> heap (snd first)
     = [None; None; Some (PInt 100); Some (PInt 101)]
  /\ deref (heap (snd first)) (Node [] two_tree)
     = deref two_records (Node [] two_tree)
  /\ fst second = Ok [4; 5]
  /\ (exists batch,
        length batch = 2
        /\ sent (snd first) = [Post "http://crick/frames/" "Token secret" batch]
        /\ sent (snd second)
           = [Post "http://crick/frames/" "Token secret" batch;
              Post "http://crick/frames/" "Token secret" batch]).
Proof.
  cbv zeta. split; [vm_compute; reflexivity|].
  split; [vm_compute; reflexivity|].
  split; [vm_compute; repeat constructor|].
  split; [vm_compute; reflexivity|].
  split; [vm_compute; reflexivity|].
  split; [vm_compute; reflexivity|].
  eexists. split; [|split; vm_compute; reflexivity]. reflexivity.
Qed.

(** ** The creation batch *)

(** C6, as the code has it: a creation request of [push] carries at least
    one item, and every item is a dict with the keys ['id'], ['start'],
    ['stop'] and ['project'] and no other: the ['id'] is there and is
    [None], the start and the stop are the ISO 8601 strings of the instants
    of a stored frame without id, and the project is the list of the
    '/'-segments of the path of the project that holds the frame. *)
Theorem creation_batch_shape (url token : string) (server : remote)
    (force : bool) (t : list (string * node loc)) (h : list pydict)
    (t' : node raw_frame) (dest authorization : string) (data : list pydict) :
  deref h (Node [] t) = Ok t' ->
  In (Post dest authorization data)
     (sent (snd (push (Some (url, token)) server force t
                   {| heap := h; sent := [] |}))) ->
  data <> []
  /\ dest = url +:+ "/frames/"
  /\ authorization = "Token " +:+ token
  /\ Forall (fun item : pydict =>
       item !! "id" = Some PNone
       /\ dom item = flat_keys
       /\ exists names m raw,
            names <> [] /\ reaches t' names m /\ In raw (frames_of m)
            /\ default PNone (rf_id raw) = PNone
            /\ item = {[ "id" := PNone;
                         "start" := PStr (isoformat (_parse_date (rf_start raw)));
                         "stop" := PStr (isoformat (_parse_date (rf_stop raw)));
                         "project" := PList (split slash (join_path names)) ]})
     data.
Proof.
  intros Hderef Hin.
  destruct (frames_items {| tree := projects_of t'; _current := None |})
    as (fs & Hfs & Hitems & Hall).
  destruct (push_run url token server force t h [] t' fs (map item_of fs)
              Hderef Hfs Hitems) as (h' & Hrun & _ & _).
  cbv zeta in Hrun. rewrite Hrun in Hin. cbn [snd sent] in Hin.
  set (news := List.filter id_is_none_in (map item_of fs)) in *.
  assert (Hdata : data = news /\ data <> [] /\ dest = url +:+ "/frames/"
                  /\ authorization = "Token " +:+ token).
  { rewrite app_nil_l in Hin. apply in_app_or in Hin as [Hin|Hin].
    - unfold batch_sent in Hin. destruct news as [|d news'] eqn:E; [destruct Hin|].
      destruct Hin as [Heq|[]]. injection Heq as <- <- <-.
      repeat split; discriminate || reflexivity.
    - destruct (batch_outcome _ _ _ news); [|destruct Hin].
      unfold batch_sent in Hin.
      destruct (if force then _ else _); [destruct Hin|].
      destruct Hin as [Heq|[]]. discriminate. }
  destruct Hdata as (-> & Hne & -> & ->).
  repeat split; try assumption.
  apply List.Forall_forall. intros item Hitem.
  apply filter_In in Hitem as [Hitem Hnone].
  apply in_map_iff in Hitem as (f & <- & Hf).
  rewrite List.Forall_forall in Hall.
  destruct (Hall f Hf) as (names & m & raw & Hnames & Hreach & Hraw & ->).
  rewrite (proj2 (push_item_flat_frame _ _)) in *.
  assert (Hid : default PNone (rf_id raw) = PNone).
  { unfold id_is_none_in, dict_get, frame_item in Hnone.
    rewrite lookup_insert_eq in Hnone. simpl in Hnone.
    destruct (default PNone (rf_id raw)); try discriminate. reflexivity. }
  unfold frame_item. rewrite Hid.
  split; [reflexivity|]. split.
  - unfold flat_keys. rewrite !dom_insert_L, dom_singleton_L. set_solver.
  - exists names, m, raw. repeat split; try assumption.
    rewrite (deref_root h t t' Hderef). exact Hreach.
Qed.

Lemma creation_batch_shape_witness :
  exists data,
    sent (snd (push crick numbering_server false two_tree
                 {| heap := two_records; sent := [] |}))
    = [Post "http://crick/frames/" "Token secret" data]
    /\ data <> []
    /\ Forall (fun item : pydict => item !! "id" = Some PNone /\ dom item = flat_keys) data.
Proof.
  eexists. split; [vm_compute; reflexivity|].
  destruct (creation_batch_shape "http://crick" "secret" numbering_server false
              two_tree two_records _ "http://crick/frames/" "Token secret" _ eq_refl
              ltac:(vm_compute; left; reflexivity)) as (Hne & _ & _ & Hall).
  split; [exact Hne|].
  eapply List.Forall_impl; [|exact Hall]. intros item (Hid & Hdom & _). now split.
Defined.

(** C6, as the claim has it, fails: the items of a creation request do
    carry an ['id'] key (its value is [None]). *)
Lemma creation_batch_has_id_key :
  ~ (forall url token server force t h t' dest authorization data,
       deref h (Node [] t) = Ok t' ->
       In (Post dest authorization data)
          (sent (snd (push (Some (url, token)) server force t
                        {| heap := h; sent := [] |}))) ->
       Forall (fun item : pydict => item !! "id" = None) data).
Proof.
  intros H.
  specialize (H "http://crick" "secret" numbering_server false two_tree two_records
                _ "http://crick/frames/" "Token secret" _ eq_refl
                ltac:(vm_compute; left; reflexivity)).
  apply Forall_cons in H as [H _]. vm_compute in H. discriminate.
Qed.

(** * More properties of the module *)

(** ** More on the timestamp codec *)

Lemma timestamp_mono (a b : Arrow) :
  (micros a <= micros b)%Z -> (timestamp a <= timestamp b)%Z.
Proof. intros H. unfold timestamp. apply Z.div_le_mono; lia. Qed.

(** X1: a stored number of seconds that is parsed and formatted again is
    the same number, a number handed in as a date formats to itself, and
    the instant parsed is in UTC; formatting never reverses the order of
    two instants, and the instants parsed from two numbers compare as the
    numbers do. *)
Theorem format_parse_exact (n : Z) (a b : Arrow) :
  _format_date (DArrow (_parse_date n)) = n
  /\ _format_date (DInt n) = n
  /\ utcoffset (_parse_date n) = 0%Z
  /\ ((micros a <= micros b)%Z ->
      (_format_date (DArrow a) <= _format_date (DArrow b))%Z)
  /\ ((_format_date (DArrow a) < _format_date (DArrow b))%Z ->
      arrow_ltb a b = true)
  /\ (forall m, (n <= m)%Z <-> arrow_ltb (_parse_date m) (_parse_date n) = false).
Proof.
  unfold _format_date, _parse_date. rewrite !timestamp_utcfromtimestamp.
  split; [reflexivity|]. split; [reflexivity|]. split; [reflexivity|].
  split; [apply timestamp_mono|]. split.
  - intros Hlt. unfold arrow_ltb. apply Z.ltb_lt.
    destruct (Z.lt_ge_cases (micros a) (micros b)) as [H|H]; [exact H|].
    apply timestamp_mono in H. lia.
  - intros m. unfold arrow_ltb, utcfromtimestamp. simpl.
    rewrite Z.ltb_ge. lia.
Qed.

(** ** Sessions from start to end *)

Lemma get_frames_add_frame project start stop message w :
  Permutation
    (get_frames (root (add_frame project start stop message w)) "")
    (flat_frame project (frame_of start stop message) :: get_frames (root w) "").
Proof.
  rewrite root_add_frame.
  rewrite get_frames_project_walk_append by apply split_not_nil.
  now rewrite join_split.
Qed.

Lemma frames_add_frame project start stop message w :
  exists fs fs',
    frames w = Ok fs
    /\ frames (add_frame project start stop message w) = Ok fs'
    /\ Permutation fs' (flat_frame project (frame_of start stop message) :: fs).
Proof.
  eexists _, _. split; [apply frames_eq|]. split; [apply frames_eq|].
  rewrite !(sorted_perm arrow_ltb start_arrow).
  apply get_frames_add_frame.
Qed.

Lemma tree_add_frame project start stop message w :
  tree (add_frame project start stop message w)
  = projects_of (fst (project_walk (append_frame (frame_of start stop message))
                        (split slash project) (Node [] (tree w)))).
Proof. unfold add_frame, root. now destruct (project_walk _ _ _). Qed.

(** X2: on an idle store, [start] of a non-empty name and then [stop]
    both succeed and return the same dict (the project and the start);
    the store is idle again, the last frame of the project holds the whole
    seconds of the two instants and no id, and [frames] is what it was
    before with one more dict, that of this frame under the name given.
    The frame does not stop before it starts when the clock did not go
    back. *)
Theorem start_stop_records_frame (t0 t1 : Arrow) (p : string)
    (message : option string) (w : Watson) :
  _current w = None -> p <> "" ->
  exists w1 w2 info fs fs2,
    start t0 (Some p) w = Ok (w1, Some info)
    /\ stop t1 message w1 = Ok (w2, Some info)
    /\ info = {[ "project" := PStr p; "start" := PArrow t0 ]}
    /\ _current w2 = None
    /\ last (frames_at (split slash p) (root w2))
       = Some {| rf_start := timestamp t0; rf_stop := timestamp t1;
                 rf_message := rf_message (frame_of (DArrow t0) (DArrow t1) message);
                 rf_id := None |}
    /\ frames w = Ok fs
    /\ frames w2 = Ok fs2
    /\ Permutation fs2
         ({[ "project" := PStr p; "id" := PNone;
             "start" := PArrow (utcfromtimestamp (timestamp t0));
             "stop" := PArrow (utcfromtimestamp (timestamp t1)) ]} :: fs)
    /\ ((micros t0 <= micros t1)%Z -> (timestamp t0 <= timestamp t1)%Z).
Proof.
  intros Hidle Hp.
  destruct p as [|c p]; [congruence|].
  destruct (frames_add_frame (String c p) (DArrow t0) (DArrow t1) message w)
    as (fs & fs2 & Hfs & Hfs2 & Hperm).
  unfold start, stop. rewrite Hidle. cbn [set_current cd_project cd_start default from_option id].
  cbn [_current current s_project s_start].
  eexists _, _, _, fs, fs2.
  split; [reflexivity|]. split; [reflexivity|]. split; [reflexivity|].
  split; [reflexivity|].
  match goal with
  | |- context [root ?x] =>
      assert (E : root x
                  = root (add_frame (String c p) (DArrow t0) (DArrow t1) message w))
        by (unfold root; cbn [tree]; now rewrite !tree_add_frame)
  end.
  split.
  { rewrite E, frames_at_add_frame, decide_True by reflexivity.
    now rewrite last_snoc. }
  split; [exact Hfs|]. split.
  { unfold frames in *. rewrite E. exact Hfs2. }
  split; [exact Hperm|]. apply timestamp_mono.
Qed.

Lemma start_stop_records_frame_witness :
  exists w1 w2 info,
    start noon (Some "work") empty_watson = Ok (w1, Some info)
    /\ stop later None w1 = Ok (w2, Some info)
    /\ _current w2 = None
    /\ frames_at ["work"] (root w2)
       = [ {| rf_start := 1400000000; rf_stop := 1400000900;
              rf_message := None; rf_id := None |} ].
Proof.
  destruct (start_stop_records_frame noon later "work" None empty_watson eq_refl
              ltac:(discriminate))
    as (w1 & w2 & info & fs & fs2 & H1 & H2 & _ & H3 & H4 & _).
  exists w1, w2, info. split; [exact H1|]. split; [exact H2|]. split; [exact H3|].
  assert (E : Ok (w1, Some info) = start noon (Some "work") empty_watson)
    by (symmetry; exact H1).
  vm_compute in E. injection E as -> _.
  assert (E2 : Ok (w2, Some info) = stop later None
                 {| tree := []; _current := Some {| s_project := "work"; s_start := DArrow noon |} |})
    by (symmetry; exact H2).
  vm_compute in E2. injection E2 as -> _. reflexivity.
Defined.

(** X3: on an idle store, [start] of a non-empty name and then [cancel]
    give back the store as it was, [cancel] returning the dict [start]
    returned; in between every [start] fails with the error of a project
    already started. *)
Theorem start_cancel_restores (t0 t1 : Arrow) (p : string) (w : Watson) :
  _current w = None -> p <> "" ->
  exists w1 info,
    start t0 (Some p) w = Ok (w1, Some info)
    /\ cancel t1 w1 = Ok (w, Some info)
    /\ info = {[ "project" := PStr p; "start" := PArrow t0 ]}
    /\ (forall q, start t1 q w1 = Raise (EWatson (AlreadyStarted p))).
Proof.
  intros Hidle Hp. destruct w as [t cur]. simpl in Hidle. subst cur.
  destruct p as [|c p]; [congruence|].
  eexists _, _. repeat split; reflexivity.
Qed.

Lemma start_cancel_restores_witness :
  exists w1 info,
    start noon (Some "home") {| tree := tree busy_watson; _current := None |}
    = Ok (w1, Some info)
    /\ cancel later w1 = Ok ({| tree := tree busy_watson; _current := None |}, Some info).
Proof.
  destruct (start_cancel_restores noon later "home"
              {| tree := tree busy_watson; _current := None |} eq_refl
              ltac:(discriminate)) as (w1 & info & H1 & H2 & _).
  exists w1, info. split; assumption.
Defined.

(** ** Resolving projects that exist *)

Lemma od_set_get_id {V} (k : string) (v : V) (d : list (string * V)) :
  od_get k d = Some v -> od_set k v d = d.
Proof.
  induction d as [|[k0 v0] d IH]; simpl; [discriminate|].
  destruct (String.eqb_spec k k0) as [->|Hne].
  - now intros [= ->].
  - intros H. now rewrite IH.
Qed.

Lemma project_walk_existing {F} (names : list string) : forall (n m : node F),
  node_at names n = Some m -> project_walk (fun x => x) names n = (n, m).
Proof.
  induction names as [|name rest IH]; intros n m; simpl.
  - now intros [= ->].
  - destruct (od_get name (projects_of n)) as [child|] eqn:Hget; [|discriminate].
    intros Hm. rewrite (IH child m Hm). rewrite (od_set_get_id _ _ _ Hget).
    now rewrite node_eta.
Qed.

(** X4: [project] on a name whose project is in the tree returns that
    project and leaves the store as it is. *)
Theorem project_existing (name : string) (w : Watson) (n : node raw_frame) :
  node_at (split slash name) (root w) = Some n ->
  project name w = (w, n).
Proof.
  intros Hn. unfold project.
  rewrite (project_walk_existing _ _ _ Hn). now destruct w.
Qed.

Lemma project_existing_witness :
  project "work/doc" busy_watson
  = (busy_watson,
     Node [ {| rf_start := 10; rf_stop := 15; rf_message := None; rf_id := None |} ] []).
Proof. exact (project_existing "work/doc" busy_watson _ eq_refl). Defined.

(** ** What [projects] lists *)

Lemma get_projects_projects {F} (n m : node F) parent :
  projects_of n = projects_of m -> get_projects n parent = get_projects m parent.
Proof. destruct n, m; simpl; now intros ->. Qed.

Lemma in_get_projects {F} (n : node F) : forall parent s,
  In s (get_projects n parent)
  <-> exists names m,
        names <> [] /\ reaches n names m /\ s = parent +:+ join_path names.
Proof.
  induction n as [fs ps IH] using node_ind. intros parent s.
  simpl get_projects. rewrite in_flat_map. split.
  - intros ([name child] & Hin & Hs). destruct Hs as [<-|Hs].
    + exists [name], child. repeat split; [discriminate|].
      econstructor; [exact Hin|constructor].
    + rewrite List.Forall_forall in IH. specialize (IH (name, child) Hin). simpl in IH.
      apply IH in Hs as (names & m & Hne & Hr & ->).
      exists (name :: names), m. repeat split; [discriminate| |].
      * econstructor; [exact Hin|exact Hr].
      * rewrite join_path_cons by assumption. now rewrite !append_assoc.
  - intros (names & m & Hne & Hr & ->).
    inversion Hr as [|? name child rest ? Hin Hrest]; subst; [congruence|].
    exists (name, child). split; [exact Hin|].
    destruct rest as [|x rest].
    + left. reflexivity.
    + right. rewrite List.Forall_forall in IH.
      specialize (IH (name, child) Hin). simpl in IH.
      apply IH. exists (x :: rest), m. repeat split; [discriminate|assumption|].
      rewrite (join_path_cons name (x :: rest)) by discriminate.
      now rewrite !append_assoc.
Qed.

Lemma reaches_take {F} (n : node F) (names : list string) (m : node F) :
  reaches n names m -> forall k, exists m', reaches n (take k names) m'.
Proof.
  induction 1 as [n|n name child names m Hin Hr IH]; intros k.
  - exists n. destruct k; constructor.
  - destruct k as [|k]; simpl.
    + exists n. constructor.
    + destruct (IH k) as (m' & Hm'). exists m'. econstructor; eassumption.
Qed.

Lemma in_od_set {V} (a : string) (v : V) (d : list (string * V)) (name : string) (c : V) :
  In (name, c) d ->
  In (name, c) (od_set a v d)
  \/ (name = a /\ od_get a d = Some c /\ In (a, v) (od_set a v d)).
Proof.
  induction d as [|[k0 v0] d IH]; simpl; [tauto|].
  destruct (String.eqb_spec a k0) as [->|Hne].
  - intros [[= -> ->]|Hin].
    + right. repeat split. now left.
    + left. now right.
  - intros [[= -> ->]|Hin].
    + left. now left.
    + destruct (IH Hin) as [H|(-> & Hget & H)].
      * left. now right.
      * right. repeat split; [exact Hget|now right].
Qed.

(** A walk that only looks loses no project. *)
Lemma reaches_project_walk {F} (q : list string) : forall (n : node F) names m,
  reaches n names m ->
  exists m', reaches (fst (project_walk (fun x => x) q n)) names m'.
Proof.
  induction q as [|a rest IH]; intros n names m Hr.
  - exists m. exact Hr.
  - rewrite project_walk_cons. cbn zeta. cbn [fst].
    inversion Hr as [|? name child names' ? Hin Hrest]; subst.
    + eexists. constructor.
    + destruct (in_od_set a (fst (project_walk (fun x => x) rest
                  (default empty_project (od_get a (projects_of n)))))
                  (projects_of n) name child Hin) as [H|(-> & Hget & H)].
      * exists m. econstructor; [exact H|exact Hrest].
      * rewrite Hget in H |- *. cbn [default from_option id] in H |- *.
        destruct (IH child names' m Hrest) as (m' & Hm').
        exists m'. econstructor; [exact H|exact Hm'].
Qed.

(** X5: [projects] lists exactly the paths of the projects below the
    root, the names joined by '/': with a project all its ancestors; after
    [project name] the name is listed, and so is every project that was
    there before. *)
Theorem projects_lists_every_project (w : Watson) :
  exists l,
    projects w = Ok l
    /\ (forall s, In s l
          <-> exists names m,
                names <> [] /\ reaches (root w) names m /\ s = join_path names)
    /\ (forall names m k,
          reaches (root w) names m -> names <> [] -> 0 < k ->
          In (join_path (take k names)) l)
    /\ (forall name, exists l',
          projects (fst (project name w)) = Ok l'
          /\ In name l'
          /\ (forall names m, reaches (root w) names m -> names <> [] ->
                In (join_path names) l')).
Proof.
  eexists. split; [apply projects_eq|].
  assert (Hin : forall w' s,
            In s (map snd (sort_pairs str_ltb
                    (map (keyed (fun x => x)) (get_projects (root w') ""))))
            <-> exists names m,
                  names <> [] /\ reaches (root w') names m /\ s = join_path names).
  { intros w' s. rewrite <- (in_get_projects (root w') "" s). split; intros H.
    - now apply (Permutation_in _ (sorted_perm str_ltb (fun x => x) _)) in H.
    - now apply (Permutation_in _ (Permutation_sym (sorted_perm str_ltb (fun x => x) _))). }
  split; [apply Hin|]. split.
  - intros names m k Hr Hne Hk. apply Hin.
    destruct (reaches_take _ _ _ Hr k) as (m' & Hm').
    exists (take k names), m'. split; [|split; [exact Hm'|reflexivity]].
    destruct names; [congruence|]. destruct k; [lia|discriminate].
  - intros name. eexists. split; [apply projects_eq|]. split.
    + apply Hin. exists (split slash name), (snd (project name w)).
      split; [apply split_not_nil|]. split; [|now rewrite join_split].
      apply reaches_node_at. rewrite root_project.
      replace (snd (project name w))
        with (snd (project_walk (fun m => m) (split slash name) (root w)))
        by (unfold project; now destruct (project_walk _ _ _)).
      apply node_at_project_walk.
    + intros names m Hr Hne. apply Hin. rewrite root_project.
      destruct (reaches_project_walk (split slash name) _ _ _ Hr) as (m' & Hm').
      exists names, m'. repeat split; assumption.
Qed.

(** ** What resolving leaves alone *)

Lemma flat_map_od_set_same {V B} (g : string * V -> list B) (a : string)
    (v' v0 : V) (d : list (string * V)) :
  g (a, v0) = [] ->
  g (a, v') = g (a, default v0 (od_get a d)) ->
  flat_map g (od_set a v' d) = flat_map g d.
Proof.
  intros Hempty. induction d as [|[k0 w0] d IH]; simpl; intros Hsame.
  - rewrite Hsame, Hempty. reflexivity.
  - destruct (String.eqb_spec a k0) as [<-|Hne]; simpl.
    + now rewrite Hsame.
    + now rewrite IH.
Qed.

Lemma flat_map_od_set_congr {V B} (g : string * V -> list B) (a : string)
    (v1 v2 : V) (d : list (string * V)) :
  g (a, v1) = g (a, v2) ->
  flat_map g (od_set a v1 d) = flat_map g (od_set a v2 d).
Proof.
  intros Hg. induction d as [|[k0 w0] d IH]; simpl.
  - now rewrite Hg.
  - destruct (String.eqb_spec a k0) as [<-|Hne]; simpl; [now rewrite Hg|now rewrite IH].
Qed.

Lemma get_frames_project_walk_id (names : list string) : forall n ancestors,
  get_frames (fst (project_walk (fun x => x) names n)) ancestors
  = get_frames n ancestors.
Proof.
  induction names as [|a rest IH]; intros n ancestors; [reflexivity|].
  rewrite project_walk_cons. cbn zeta. cbn [fst].
  destruct n as [fs ps]. cbn [projects_of frames_of].
  set (child := default empty_project (od_get a ps)).
  change (get_frames (Node fs ?d) ancestors)
    with (flat_map (fun '(name, project) =>
                      map (flat_frame (ancestors +:+ name)) (frames_of project)
                      ++ get_frames project (ancestors +:+ name +:+ "/")) d).
  apply (flat_map_od_set_same _ a _ empty_project); [reflexivity|].
  fold child. rewrite IH. destruct rest as [|b rest]; [reflexivity|].
  now rewrite frames_of_project_walk by discriminate.
Qed.

Lemma get_projects_project_walk {F} (k : node F -> node F) (names : list string) :
  (forall n, projects_of (k n) = projects_of n) ->
  forall n parent,
    get_projects (fst (project_walk k names n)) parent
    = get_projects (fst (project_walk (fun x => x) names n)) parent.
Proof.
  intros Hk. induction names as [|a rest IH]; intros n parent.
  - simpl. now apply get_projects_projects.
  - rewrite !project_walk_cons. cbn zeta. cbn [fst].
    change (get_projects (Node ?fs ?d) parent)
      with (flat_map (fun '(name, child) =>
                        let name := parent +:+ name in
                        name :: get_projects child (name +:+ "/")) d).
    apply flat_map_od_set_congr. cbn zeta. now rewrite IH.
Qed.

(** X6: [project] adds no frame and moves none: the traversal and
    [frames] are the same after it; [add_frame] creates the projects
    [project] creates, so [projects] is the same after either. *)
Theorem project_keeps_frames (name : string) (w : Watson) :
  get_frames (root (fst (project name w))) "" = get_frames (root w) ""
  /\ frames (fst (project name w)) = frames w
  /\ (forall start stop message,
        projects (add_frame name start stop message w)
        = projects (fst (project name w))).
Proof.
  assert (E : get_frames (root (fst (project name w))) "" = get_frames (root w) "").
  { rewrite root_project. apply get_frames_project_walk_id. }
  split; [exact E|]. split.
  - unfold frames. now rewrite E.
  - intros start stop message. unfold projects.
    rewrite root_add_frame, root_project.
    now rewrite (get_projects_project_walk (append_frame _)).
Qed.

(** ** Dicts keep distinct keys *)

Lemma well_keyed_unfold {F} (fs : list F) (ps : list (string * node F)) :
  well_keyed (Node fs ps)
  <-> NoDup (map fst ps) /\ List.Forall (fun p => well_keyed (snd p)) ps.
Proof.
  cbn [well_keyed projects_of]. apply and_iff_compat_l.
  induction ps as [|[name child] ps IH].
  - split; intros; constructor.
  - rewrite IH. split.
    + intros [Hc Hps]. now constructor.
    + intros H. inversion H; subst. now split.
Qed.

Lemma od_get_None_keys {V} (k : string) (d : list (string * V)) :
  od_get k d = None <-> ~ In k (map fst d).
Proof.
  induction d as [|[k0 v0] d IH]; simpl; [tauto|].
  destruct (String.eqb_spec k k0) as [->|Hne].
  - split; [discriminate|]. intros H. exfalso. apply H. now left.
  - rewrite IH. split.
    + intros H [Heq|Hin]; [congruence|contradiction].
    + intros H Hin. apply H. now right.
Qed.

Lemma od_set_keys {V} (k : string) (v : V) (d : list (string * V)) :
  map fst (od_set k v d)
  = match od_get k d with
    | Some _ => map fst d
    | None => map fst d ++ [k]
    end.
Proof.
  induction d as [|[k0 v0] d IH]; simpl; [reflexivity|].
  destruct (String.eqb_spec k k0) as [->|Hne]; simpl; [reflexivity|].
  rewrite IH. now destruct (od_get k d).
Qed.

Lemma od_set_NoDup {V} (k : string) (v : V) (d : list (string * V)) :
  NoDup (map fst d) -> NoDup (map fst (od_set k v d)).
Proof.
  intros Hnd. rewrite od_set_keys.
  destruct (od_get k d) eqn:Hget; [exact Hnd|].
  apply od_get_None_keys in Hget.
  apply NoDup_app. split; [exact Hnd|]. split.
  - intros x Hx Hk. apply list_elem_of_In in Hx.
    apply list_elem_of_In in Hk. destruct Hk as [<-|[]]. contradiction.
  - apply NoDup_singleton.
Qed.

Lemma od_set_Forall {V} (P : string * V -> Prop) (k : string) (v : V)
    (d : list (string * V)) :
  (forall k', P (k', v)) -> List.Forall P d -> List.Forall P (od_set k v d).
Proof.
  intros Hv. induction 1 as [|[k0 v0] d Hx Hd IH]; simpl.
  - constructor; [apply Hv|constructor].
  - destruct (String.eqb k k0); constructor; auto.
Qed.

Lemma od_get_Forall {V} (P : string * V -> Prop) (k : string) (v : V)
    (d : list (string * V)) :
  List.Forall P d -> od_get k d = Some v -> P (k, v).
Proof.
  intros Hall Hget. apply od_get_In in Hget.
  exact (proj1 (List.Forall_forall _ _) Hall _ Hget).
Qed.

Lemma well_keyed_project_walk {F} (k : node F -> node F) (names : list string) :
  (forall n, well_keyed n -> well_keyed (k n)) ->
  forall n, well_keyed n -> well_keyed (fst (project_walk k names n)).
Proof.
  intros Hk. induction names as [|a rest IH]; intros n Hn; [now apply Hk|].
  rewrite project_walk_cons. cbn zeta. cbn [fst].
  destruct n as [fs ps]. cbn [projects_of frames_of].
  apply well_keyed_unfold in Hn as [Hnd Hall].
  apply well_keyed_unfold. split; [now apply od_set_NoDup|].
  apply od_set_Forall; [|exact Hall].
  intros k'. cbn [snd]. apply IH.
  destruct (od_get a ps) as [child|] eqn:Hget; cbn.
  - exact (od_get_Forall _ _ _ _ Hall Hget).
  - split; [constructor|exact I].
Qed.

Lemma od_get_In_NoDup {V} (k : string) (v : V) (d : list (string * V)) :
  NoDup (map fst d) -> In (k, v) d -> od_get k d = Some v.
Proof.
  induction d as [|[k0 v0] d IH]; simpl; [tauto|].
  intros Hnd. apply NoDup_cons in Hnd as [Hk0 Hnd].
  intros [[= -> ->]|Hin].
  - now rewrite String.eqb_refl.
  - destruct (String.eqb_spec k k0) as [->|Hne]; [|now apply IH].
    exfalso. apply Hk0. apply list_elem_of_In.
    apply in_map_iff. now exists (k0, v).
Qed.

Lemma node_at_reaches {F} (n : node F) (names : list string) (m : node F) :
  well_keyed n -> reaches n names m -> node_at names n = Some m /\ well_keyed m.
Proof.
  intros Hn Hr. induction Hr as [n|n name child names m Hin Hr IH].
  - now split.
  - destruct n as [fs ps]. apply well_keyed_unfold in Hn as [Hnd Hall].
    cbn [node_at projects_of] in *.
    rewrite (od_get_In_NoDup _ _ _ Hnd Hin). apply IH.
    exact (proj1 (List.Forall_forall _ _) Hall _ Hin).
Qed.

(** X7: in a tree whose dicts have distinct keys, [project] and
    [add_frame] leave dicts with distinct keys, and a list of names leads
    to one project only: the one [node_at] finds. *)
Theorem dicts_keep_distinct_keys (w : Watson) :
  well_keyed (root w) ->
  (forall name, well_keyed (root (fst (project name w))))
  /\ (forall name start stop message,
        well_keyed (root (add_frame name start stop message w)))
  /\ (forall names m, reaches (root w) names m <-> node_at names (root w) = Some m).
Proof.
  intros Hw. split; [|split].
  - intros name. rewrite root_project. now apply well_keyed_project_walk.
  - intros name start stop message. rewrite root_add_frame.
    apply well_keyed_project_walk; [|exact Hw].
    intros [fs ps] Hn. apply well_keyed_unfold in Hn.
    unfold append_frame. now apply well_keyed_unfold.
  - intros names m. split.
    + intros Hr. now apply node_at_reaches.
    + apply reaches_node_at.
Qed.

Lemma busy_watson_well_keyed : well_keyed (root busy_watson).
Proof.
  assert (H1 : forall a : string, NoDup [a]) by (intros a; apply NoDup_singleton).
  assert (H2 : NoDup ["work"; "home"]).
  { apply NoDup_cons. split; [|apply H1]. intros H. apply list_elem_of_In in H.
    destruct H as [H|[]]. discriminate. }
  cbn. repeat split; apply H1 || apply H2 || apply NoDup_nil_2.
Qed.

Lemma dicts_keep_distinct_keys_witness :
  well_keyed (root (fst (project "work/doc/api" busy_watson)))
  /\ well_keyed (root (add_frame "home/garden" (DInt 1) (DInt 2) None busy_watson)).
Proof.
  destruct (dicts_keep_distinct_keys busy_watson busy_watson_well_keyed) as (H1 & H2 & _).
  split; [apply H1|apply H2].
Defined.

(** ** A session across a reload *)

Lemma format_date_idem (d : date) :
  _format_date (DInt (_format_date d)) = _format_date d.
Proof. apply format_date_int. Qed.

Lemma add_frame_format project d1 d2 stop message w :
  _format_date d1 = _format_date d2 ->
  add_frame project d1 stop message w = add_frame project d2 stop message w.
Proof. intros H. unfold add_frame, frame_of. now rewrite H. Qed.

Lemma add_frame_current project start stop message t c :
  add_frame project start stop message {| tree := t; _current := c |}
  = {| tree := tree (add_frame project start stop message
                       {| tree := t; _current := None |});
       _current := c |}.
Proof. unfold add_frame, root. cbn [tree _current]. now destruct (project_walk _ _ _). Qed.

(** X8: a running session that is dumped and loaded again is stopped
    into the same store as the session that was not: the frame has the
    same start second.  The dict returned holds the start as the number of
    seconds after the reload, as the instant before it.  [cancel] after
    the reload leaves the tree untouched. *)
Theorem stop_after_reload (now t1 : Arrow) (message : option string)
    (w : Watson) (s : session) :
  _current w = Some s ->
  exists w' w2 info info',
    _load now (DocDict (dump w)) = Ok w'
    /\ stop t1 message w = Ok (w2, info)
    /\ stop t1 message w' = Ok (w2, info')
    /\ info = Some {[ "project" := PStr (s_project s);
                      "start" := pyval_of_date (s_start s) ]}
    /\ info' = Some {[ "project" := PStr (s_project s);
                       "start" := PInt (_format_date (s_start s)) ]}
    /\ cancel t1 w' = Ok ({| tree := tree w; _current := None |}, info').
Proof.
  intros Hs. destruct w as [t cur]. cbn [_current] in Hs. subst cur.
  destruct s as [p d].
  exists {| tree := t;
            _current := Some {| s_project := p; s_start := DInt (_format_date d) |} |}.
  eexists _, _, _. split; [reflexivity|].
  unfold stop, cancel. cbn [_current current s_project s_start set_current tree].
  split; [reflexivity|]. split; [|repeat split; reflexivity].
  rewrite (add_frame_format p (DInt (_format_date d)) d) by apply format_date_idem.
  rewrite (add_frame_current p d (DArrow t1) message t (Some _)).
  rewrite (add_frame_current p d (DArrow t1) message t (Some {| s_project := p; s_start := d |})).
  reflexivity.
Qed.

Lemma stop_after_reload_witness :
  exists w' w2 info info',
    _load noon (DocDict (dump busy_watson)) = Ok w'
    /\ stop later None busy_watson = Ok (w2, info)
    /\ stop later None w' = Ok (w2, info').
Proof.
  destruct (stop_after_reload noon later None busy_watson _ eq_refl)
    as (w' & w2 & info & info' & H1 & H2 & H3 & _).
  exists w', w2, info, info'. repeat split; assumption.
Defined.

(** ** Names address projects one to one *)

Lemma split_injective (a b : string) : split slash a = split slash b -> a = b.
Proof. intros H. rewrite <- (join_split a), <- (join_split b). now rewrite H. Qed.

(** X9: [add_frame] under one name appends its frame to the frames found
    under that name and changes the frames found under no other name. *)
Theorem add_frame_other_name (a b : string) (start stop : date)
    (message : option string) (w : Watson) :
  a <> b ->
  frames_at (split slash b) (root (add_frame a start stop message w))
  = frames_at (split slash b) (root w)
  /\ frames_at (split slash a) (root (add_frame a start stop message w))
     = frames_at (split slash a) (root w) ++ [frame_of start stop message].
Proof.
  intros Hab. rewrite !frames_at_add_frame. split.
  - rewrite decide_False; [reflexivity|]. intros H. apply Hab. symmetry.
    now apply split_injective.
  - now rewrite decide_True.
Qed.

Lemma add_frame_other_name_witness :
  frames_at ["home"] (root (add_frame "work" (DInt 1) (DInt 2) None busy_watson))
  = frames_at ["home"] (root busy_watson).
Proof.
  exact (proj1 (add_frame_other_name "work" "home" (DInt 1) (DInt 2) None busy_watson
                  ltac:(discriminate))).
Defined.

(** ** The requests of [push] and the dicts it returns *)

Lemma forM_assign_full (pairs : list (loc * pyval)) : forall w,
  NoDup (map fst pairs) ->
  Forall (has_project (heap w)) (map fst pairs) ->
  exists h',
    forM_ pairs assign_id w = (Ok tt, {| heap := h'; sent := sent w |})
    /\ length h' = length (heap w)
    /\ (forall l, ~ In l (map fst pairs) -> h' !! l = heap w !! l)
    /\ (forall l v d, In (l, v) pairs -> heap w !! l = Some d ->
          h' !! l = Some (delete "project" (<[ "id" := v ]> d))).
Proof.
  induction pairs as [|[l i] pairs IH]; intros w Hnd Hall.
  - exists (heap w). destruct w. repeat split; try reflexivity. intros l v d [].
  - simpl in Hnd, Hall. apply NoDup_cons in Hnd as [Hl Hnd].
    apply Forall_cons in Hall as [(d & Hd & Hp) Hall].
    cbn [forM_]. rewrite M_bind_run, (assign_id_run l i w d Hd Hp).
    set (w1 := {| heap := <[ l := delete "project" (<[ "id" := i ]> d) ]> (heap w);
                  sent := sent w |}).
    assert (Hlt : l < length (heap w)) by (eapply lookup_lt_Some; exact Hd).
    destruct (IH w1 Hnd) as (h' & Hrun & Hlen & Hother & Hset).
    + apply Forall_forall. intros l' Hl'.
      rewrite Forall_forall in Hall. destruct (Hall l' Hl') as (d' & Hd' & Hp').
      exists d'. split; [|assumption]. unfold w1; cbn [heap].
      rewrite list_lookup_insert_ne by (intros ->; contradiction). assumption.
    + exists h'. cbn [sent] in Hrun. split; [exact Hrun|].
      split; [|split].
      * rewrite Hlen. unfold w1; cbn [heap]. apply length_insert.
      * intros l' Hl'. rewrite Hother.
        -- unfold w1; cbn [heap]. apply list_lookup_insert_ne.
           intros ->. apply Hl'. now left.
        -- intros Hin. apply Hl'. now right.
      * intros l' v d' [[= -> ->]|Hin] Hd'.
        -- rewrite Hother by (intros Hin; apply Hl; now apply list_elem_of_In).
           unfold w1; cbn [heap]. rewrite list_lookup_insert_eq by exact Hlt.
           congruence.
        -- apply Hset; [exact Hin|]. unfold w1; cbn [heap].
           rewrite list_lookup_insert_ne; [exact Hd'|].
           intros ->. apply Hl. apply list_elem_of_In.
           apply in_map_iff. now exists (l', v).
Qed.

Lemma lookup_zip {A B} (l : list A) (k : list B) (i : nat) (x : A) (y : B) :
  l !! i = Some x -> k !! i = Some y -> zip l k !! i = Some (x, y).
Proof.
  revert k i. induction l as [|a l IH]; intros [|b k] [|i]; simpl; try discriminate.
  - now intros [= ->] [= ->].
  - apply IH.
Qed.

(** Up to the two blocks that talk to the server, [push] builds its dicts
    and sorts their addresses by whether the id is [None]. *)
Lemma push_unfold (url token : string) (server : remote) (force : bool)
    (t : list (string * node loc)) (h : list pydict) (s : list request)
    (t' : node raw_frame) (fs items : list pydict) :
  deref h (Node [] t) = Ok t' ->
  frames {| tree := projects_of t'; _current := None |} = Ok fs ->
  mapM push_item fs = Ok items ->
  let dest := url +:+ "/frames/" in
  let authorization := "Token " +:+ token in
  let new_frames :=
    List.filter (none_at (h ++ items)) (seq (length h) (length items)) in
  let existing :=
    if force
    then List.filter (fun l => negb (none_at (h ++ items) l))
           (seq (length h) (length items))
    else [] in
  push (Some (url, token)) server force t {| heap := h; sent := s |}
  = (_ ← create_frames server dest authorization new_frames;
     _ ← update_frames server dest authorization existing;
     mret new_frames) {| heap := h ++ items; sent := s |}.
Proof.
  intros Hderef Hfs Hitems dest authorization new_frames existing.
  assert (Hkeys : Forall (has_id (h ++ items)) (seq (length h) (length items))).
  { apply Forall_forall. intros l Hl. apply list_elem_of_In in Hl.
    now apply (allocated_have_keys h fs items l Hitems). }
  unfold push. rewrite M_bind_run. cbn [mret M_ret fst snd].
  rewrite M_bind_run. unfold frames_h at 1. cbn [heap]. rewrite Hderef.
  cbn [mbind result_bind]. rewrite Hfs.
  rewrite M_bind_run, (alloc_items_run fs items) by exact Hitems. cbn [heap sent].
  rewrite M_bind_run, filterM_id_is_none_run by exact Hkeys. cbn [heap].
  fold new_frames.
  assert (Hexisting :
    (if force
     then filterM (fun l => b ← id_is_none l; mret (negb b)) (seq (length h) (length items))
     else mret [] : M (list loc)) {| heap := h ++ items; sent := s |}
    = (Ok existing, {| heap := h ++ items; sent := s |})).
  { unfold existing. destruct force; [|reflexivity].
    now rewrite filterM_id_is_some_run by exact Hkeys. }
  rewrite M_bind_run, Hexisting. reflexivity.
Qed.

Lemma create_frames_created (server : remote) (dest authorization : string)
    (h fs items : list pydict) (s : list request) (r : response) :
  mapM push_item fs = Ok items ->
  let news := List.filter id_is_none_in items in
  let new_frames :=
    List.filter (none_at (h ++ items)) (seq (length h) (length items)) in
  news <> [] ->
  server (Post dest authorization news) = Some r ->
  status_code r = 201%Z ->
  exists h2,
    create_frames server dest authorization new_frames
      {| heap := h ++ items; sent := s |}
    = (Ok tt, {| heap := h2; sent := s ++ [Post dest authorization news] |})
    /\ (forall l, ~ In l new_frames -> h2 !! l = (h ++ items) !! l)
    /\ (forall i l d, new_frames !! i = Some l -> news !! i = Some d ->
          h2 !! l = Some (match json r !! i with
                          | Some v => delete "project" (<[ "id" := v ]> d)
                          | None => d
                          end)).
Proof.
  intros Hitems news new_frames Hne Hserver Hstatus.
  pose proof (new_frames_news h items) as Hnews. fold news new_frames in Hnews.
  assert (Hnd : NoDup new_frames) by apply NoDup_list_filter, NoDup_seq.
  assert (Hkeys : forall l, In l new_frames -> has_project (h ++ items) l).
  { intros l Hl. apply filter_In in Hl as [Hl _].
    now apply (allocated_have_keys h fs items l Hitems). }
  clearbody news new_frames.
  unfold create_frames.
  destruct new_frames as [|l0 nl] eqn:Enl.
  { inversion Hnews; subst. congruence. }
  rewrite <- Enl in *.
  rewrite M_bind_run, (mapM_read_run new_frames news) by exact Hnews.
  rewrite M_bind_run. unfold send at 1. cbn [heap sent]. rewrite Hserver.
  rewrite Hstatus. cbn [Z.eqb Pos.eqb negb].
  destruct (forM_assign_full (zip new_frames (json r))
              {| heap := h ++ items; sent := s ++ [Post dest authorization news] |})
    as (h2 & Hrun & Hlen & Hother & Hset).
  - rewrite fst_zip_take.
    apply (sublist_NoDup (take (length (json r)) new_frames) new_frames);
      [exact Hnd|apply sublist_take].
  - rewrite fst_zip_take. apply Forall_forall. intros l' Hl'.
    apply Hkeys. apply list_elem_of_In in Hl'. eapply In_take. exact Hl'.
  - exists h2. cbn [heap sent] in *. split; [exact Hrun|]. split.
    + intros l' Hl'. apply Hother. rewrite fst_zip_take.
      intros Hin. apply Hl'. eapply In_take. exact Hin.
    + intros i l d Hl Hd.
      pose proof (Forall2_lookup_lr _ _ _ _ _ _ Hnews Hl Hd) as Hld.
      destruct (json r !! i) as [v|] eqn:Hv.
      * apply (Hset l v d); [|exact Hld].
        apply list_elem_of_In. eapply list_elem_of_lookup_2.
        apply lookup_zip; eassumption.
      * rewrite Hother; [exact Hld|].
        rewrite fst_zip_take. intros Hin. apply list_elem_of_In in Hin.
        apply elem_of_take in Hin as (j & Hj & Hlt).
        pose proof (NoDup_lookup _ _ _ _ Hnd Hl Hj) as ->.
        apply lookup_ge_None in Hv. lia.
Qed.

Lemma filter_map_comm {A B} (p : B -> bool) (f : A -> B) (l : list A) :
  List.filter p (map f l) = map f (List.filter (fun x => p (f x)) l).
Proof.
  induction l as [|x l IH]; [reflexivity|].
  simpl. destruct (p (f x)); simpl; now rewrite IH.
Qed.

Lemma id_is_none_in_item_of (f : pydict) :
  id_is_none_in (item_of f) = is_none (dict_get f "id").
Proof. reflexivity. Qed.

(** The requests of [push] and its result, from the list [frames] gives. *)
Lemma push_closed_form (url token : string) (server : remote) (force : bool)
    (t : list (string * node loc)) (h : list pydict) (s : list request)
    (t' : node raw_frame) (fs : list pydict) :
  deref h (Node [] t) = Ok t' ->
  frames {| tree := projects_of t'; _current := None |} = Ok fs ->
  let unsynced := map item_of (List.filter (fun f => is_none (dict_get f "id")) fs) in
  let synced :=
    map item_of (List.filter (fun f => negb (is_none (dict_get f "id"))) fs) in
  let post := Post (url +:+ "/frames/") ("Token " +:+ token) in
  let put := Put (url +:+ "/frames/") ("Token " +:+ token) in
  let run := push (Some (url, token)) server force t {| heap := h; sent := s |} in
  exists locs,
    length locs = length unsynced
    /\ fst run = (_ ← batch_outcome server post 201 unsynced;
                  _ ← (if force then batch_outcome server put 200 synced else Ok tt);
                  Ok locs)
    /\ sent (snd run)
       = s ++ batch_sent post unsynced
           ++ match batch_outcome server post 201 unsynced with
              | Ok _ => if force then batch_sent put synced else []
              | Raise _ => []
              end.
Proof.
  intros Hderef Hfs unsynced synced post put run.
  destruct (frames_items {| tree := projects_of t'; _current := None |})
    as (fs0 & Hfs0 & Hitems & _).
  rewrite Hfs in Hfs0. injection Hfs0 as <-.
  destruct (push_run url token server force t h s t' fs (map item_of fs)
              Hderef Hfs Hitems) as (h' & Hrun & _ & Hlen).
  cbv zeta in Hrun, Hlen. fold run in Hrun.
  rewrite (filter_map_comm id_is_none_in item_of fs) in Hrun, Hlen.
  assert (E1 : List.filter (fun x => id_is_none_in (item_of x)) fs
               = List.filter (fun f => is_none (dict_get f "id")) fs) by reflexivity.
  assert (E2 : List.filter (fun x => negb (id_is_none_in (item_of x))) fs
               = List.filter (fun f => negb (is_none (dict_get f "id"))) fs) by reflexivity.
  rewrite E1 in Hrun, Hlen.
  fold unsynced post put in Hrun, Hlen.
  eexists. split; [exact Hlen|]. rewrite Hrun. cbn [fst snd sent].
  destruct force.
  - rewrite (filter_map_comm (fun d => negb (id_is_none_in d)) item_of fs), E2.
    fold synced. split; reflexivity.
  - split; [|reflexivity].
    destruct (batch_outcome server post 201 unsynced) as [[]|]; reflexivity.
Qed.

(** X10: the requests of [push] on a store whose records are read
    without error.  With the dicts of [frames] in their order: one POST
    with the dicts built from those without id, when there is one; then,
    with [force] and only when the POST did not fail, one PUT with the
    dicts built from those with an id, when there is one; nothing else.
    The result is the first error of the two, or as many new dicts as the
    POST carries.  The dicts of the POST have the id [None], those of the
    PUT their id. *)
Theorem push_requests (url token : string) (server : remote) (force : bool)
    (t : list (string * node loc)) (h : list pydict) (s : list request)
    (t' : node raw_frame) (fs : list pydict) :
  deref h (Node [] t) = Ok t' ->
  frames {| tree := projects_of t'; _current := None |} = Ok fs ->
  let unsynced := map item_of (List.filter (fun f => is_none (dict_get f "id")) fs) in
  let synced :=
    map item_of (List.filter (fun f => negb (is_none (dict_get f "id"))) fs) in
  let post := Post (url +:+ "/frames/") ("Token " +:+ token) in
  let put := Put (url +:+ "/frames/") ("Token " +:+ token) in
  let run := push (Some (url, token)) server force t {| heap := h; sent := s |} in
  exists locs,
    length locs = length unsynced
    /\ fst run = (_ ← batch_outcome server post 201 unsynced;
                  _ ← (if force then batch_outcome server put 200 synced else Ok tt);
                  Ok locs)
    /\ sent (snd run)
       = s ++ batch_sent post unsynced
           ++ match batch_outcome server post 201 unsynced with
              | Ok _ => if force then batch_sent put synced else []
              | Raise _ => []
              end
    /\ List.Forall (fun item : pydict => item !! "id" = Some PNone) unsynced
    /\ List.Forall (fun item : pydict =>
                      exists v, item !! "id" = Some v /\ v <> PNone) synced.
Proof.
  intros Hderef Hfs unsynced synced post put run.
  destruct (push_closed_form url token server force t h s t' fs Hderef Hfs)
    as (locs & Hlen & Hres & Hsent).
  exists locs. split; [exact Hlen|]. split; [exact Hres|]. split; [exact Hsent|].
  split; apply List.Forall_forall; intros item Hitem;
    apply in_map_iff in Hitem as (f & <- & Hf); apply filter_In in Hf as [_ Hf].
  - change (item_of f !! "id") with (Some (dict_get f "id")).
    destruct (dict_get f "id"); try discriminate. reflexivity.
  - exists (dict_get f "id"). split; [reflexivity|].
    intros E. rewrite E in Hf. discriminate.
Qed.

Lemma push_requests_witness :
  exists locs,
    length locs = 1
    /\ fst (push crick numbering_server true mixed_tree
              {| heap := mixed_records; sent := [] |}) = Ok locs
    /\ sent (snd (push crick numbering_server true mixed_tree
                    {| heap := mixed_records; sent := [] |}))
       = [Post "http://crick/frames/" "Token secret"
            [item_of (flat_frame "work" (MkRaw 5 8 None None))];
          Put "http://crick/frames/" "Token secret"
            [item_of (flat_frame "work" (MkRaw 10 20 None (Some (PInt 7))))]].
Proof.
  destruct (push_requests "http://crick" "secret" numbering_server true
              mixed_tree mixed_records [] mixed_node mixed_frames
              ltac:(vm_compute; reflexivity) ltac:(vm_compute; reflexivity))
    as (locs & Hlen & Hres & Hsent & _).
  exists locs. split; [exact Hlen|]. split; [exact Hres|exact Hsent].
Defined.

(** X11: when every stored frame has an id, [push] without [force] sends
    no request and returns no frame. *)
Theorem push_all_synced_sends_nothing (url token : string) (server : remote)
    (t : list (string * node loc)) (h : list pydict) (s : list request)
    (t' : node raw_frame) :
  deref h (Node [] t) = Ok t' ->
  (forall names m raw,
     reaches t' names m -> In raw (frames_of m) ->
     default PNone (rf_id raw) <> PNone) ->
  fst (push (Some (url, token)) server false t {| heap := h; sent := s |}) = Ok []
  /\ sent (snd (push (Some (url, token)) server false t {| heap := h; sent := s |}))
     = s.
Proof.
  intros Hderef Hids.
  destruct (frames_items {| tree := projects_of t'; _current := None |})
    as (fs & Hfs & _ & Hall).
  assert (Hnone : List.filter (fun f => is_none (dict_get f "id")) fs = []).
  { clear Hfs. induction Hall as [|f fs' Hf _ IH]; [reflexivity|].
    destruct Hf as (names & m & raw & _ & Hr & Hraw & ->).
    cbn [List.filter].
    change (dict_get (flat_frame (join_path names) raw) "id")
      with (default PNone (rf_id raw)).
    unfold root in Hr. cbn [tree] in Hr.
    rewrite <- (deref_root h t t' Hderef) in Hr.
    specialize (Hids names m raw Hr Hraw).
    destruct (default PNone (rf_id raw));
      [congruence|exact IH|exact IH|exact IH|exact IH]. }
  destruct (push_closed_form url token server false t h s t' fs Hderef Hfs)
    as (locs & Hlen & Hres & Hsent).
  cbv zeta in Hlen, Hres, Hsent. rewrite Hnone in Hlen, Hres, Hsent.
  cbn [map length batch_outcome batch_sent mbind result_bind] in Hlen, Hres, Hsent.
  destruct locs; [|discriminate].
  split; [exact Hres|]. rewrite Hsent. now rewrite !app_nil_r.
Qed.

Lemma push_all_synced_sends_nothing_witness :
  fst (push crick numbering_server false synced_tree
         {| heap := synced_records; sent := [] |}) = Ok []
  /\ sent (snd (push crick numbering_server false synced_tree
                  {| heap := synced_records; sent := [] |})) = [].
Proof.
  apply (push_all_synced_sends_nothing "http://crick" "secret" numbering_server
           synced_tree synced_records [] synced_node
           ltac:(vm_compute; reflexivity)).
  intros names m raw Hr Hraw.
  inversion Hr as [|? name child rest ? Hin Hrest]; subst; [destruct Hraw|].
  destruct Hin as [[= <- <-]|[]].
  inversion Hrest as [|? name' child' rest' ? Hin' _]; subst; [|destruct Hin'].
  destruct Hraw as [<-|[]]. discriminate.
Defined.

(** X12: when the server answers the POST with the status 201, [push]
    without [force] returns the dicts it sent, in the order sent, each
    with the id at its position in the answer in place of [None] and
    without its ['project']; the dicts beyond the end of a shorter answer
    are returned as they were sent. *)
Theorem push_returns_ids_in_order (url token : string) (server : remote)
    (t : list (string * node loc)) (h : list pydict) (s : list request)
    (t' : node raw_frame) (fs : list pydict) (r : response) :
  deref h (Node [] t) = Ok t' ->
  frames {| tree := projects_of t'; _current := None |} = Ok fs ->
  let unsynced := map item_of (List.filter (fun f => is_none (dict_get f "id")) fs) in
  unsynced <> [] ->
  server (Post (url +:+ "/frames/") ("Token " +:+ token) unsynced) = Some r ->
  status_code r = 201%Z ->
  exists locs w',
    push (Some (url, token)) server false t {| heap := h; sent := s |}
    = (Ok locs, w')
    /\ length locs = length unsynced
    /\ (forall i l d,
          locs !! i = Some l -> unsynced !! i = Some d ->
          heap w' !! l
          = Some (match json r !! i with
                  | Some v => delete "project" (<[ "id" := v ]> d)
                  | None => d
                  end)).
Proof.
  intros Hderef Hfs unsynced Hne Hserver Hstatus.
  destruct (frames_items {| tree := projects_of t'; _current := None |})
    as (fs0 & Hfs0 & Hitems & _).
  rewrite Hfs in Hfs0. injection Hfs0 as <-.
  assert (Hnews : List.filter id_is_none_in (map item_of fs) = unsynced).
  { unfold unsynced. now rewrite filter_map_comm. }
  rewrite (push_unfold url token server false t h s t' fs (map item_of fs)
             Hderef Hfs Hitems).
  cbv zeta.
  destruct (create_frames_created server (url +:+ "/frames/") ("Token " +:+ token)
              h fs (map item_of fs) s r Hitems) as (h2 & Hrun & _ & Hset).
  - now rewrite Hnews.
  - now rewrite Hnews.
  - exact Hstatus.
  - rewrite M_bind_run, Hrun. cbn [update_frames].
    eexists _, _. split; [reflexivity|]. split.
    + rewrite <- Hnews. apply (Forall2_length _ _ _ (new_frames_news h _)).
    + intros i l d Hl Hd. cbn [heap]. apply Hset; [exact Hl|now rewrite Hnews].
Qed.

Lemma push_returns_ids_in_order_witness :
  exists locs w',
    push crick numbering_server false two_tree {| heap := two_records; sent := [] |}
    = (Ok locs, w')
    /\ length locs = 2
    /\ (forall i l d,
          locs !! i = Some l -> map item_of two_frames !! i = Some d ->
          heap w' !! l
          = Some (match [PInt 100; PInt 101] !! i with
                  | Some v => delete "project" (<[ "id" := v ]> d)
                  | None => d
                  end)).
Proof.
  exact (push_returns_ids_in_order "http://crick" "secret" numbering_server
           two_tree two_records [] two_node two_frames
           {| status_code := 201; json := [PInt 100; PInt 101] |}
           ltac:(vm_compute; reflexivity) ltac:(vm_compute; reflexivity)
           ltac:(discriminate) ltac:(vm_compute; reflexivity) eq_refl).
Defined.

(** X13: whatever the configuration, the server and the outcome, every
    object that was in the store before [push] is the same after it: the
    records of the tree are read as before.  Without url or token [push]
    raises before it reads a frame or sends a request. *)
Theorem push_never_writes_store (config : option (string * string))
    (server : remote) (force : bool) (t : list (string * node loc))
    (h : list pydict) (s : list request) (t' : node raw_frame) :
  deref h (Node [] t) = Ok t' ->
  let run := push config server force t {| heap := h; sent := s |} in
  (forall l d, h !! l = Some d -> heap (snd run) !! l = Some d)
  /\ (forall l raw, raw_at h l = Ok raw -> raw_at (heap (snd run)) l = Ok raw)
  /\ deref (heap (snd run)) (Node [] t) = Ok t'
  /\ (config = None ->
      run = (Raise (EWatson MissingConfig), {| heap := h; sent := s |})).
Proof.
  intros Hderef run.
  destruct (push_keeps_records config server force t h s t' Hderef) as [Hp Hd].
  fold run in Hp, Hd. split; [|split; [|split]].
  - intros l d Hl. exact (prefix_lookup_Some _ _ _ _ Hl Hp).
  - intros l raw. now apply raw_at_prefix.
  - exact Hd.
  - intros ->. reflexivity.
Qed.

Lemma push_never_writes_store_witness :
  deref (heap (snd (push crick numbering_server true two_tree
                      {| heap := two_records; sent := [] |})))
    (Node [] two_tree)
  = Ok two_node.
Proof.
  exact (proj1 (proj2 (proj2
           (push_never_writes_store crick numbering_server true two_tree
              two_records [] two_node ltac:(vm_compute; reflexivity))))).
Defined.

(** ** What [project] does to the objects *)

Lemma map_alter_same {A B} (g : A -> B) (f : A -> A) (i : nat) (l : list A) :
  (forall x, g (f x) = g x) -> map g (alter f i l) = map g l.
Proof.
  intros Hg. revert i. induction l as [|x l IH]; intros [|i]; simpl; try reflexivity.
  - f_equal. apply Hg.
  - f_equal. apply IH.
Qed.

Lemma frames_add_child project name st :
  map po_frames (objects (add_child project name st))
  = map po_frames (objects st) ++ [[]].
Proof.
  unfold add_child. destruct project as [p|]; simpl.
  - rewrite map_alter_same by reflexivity. now rewrite map_app.
  - now rewrite map_app.
Qed.

Lemma project_ref_frames (names : list string) : forall project st,
  exists k,
    k <= length names
    /\ map po_frames (objects (snd (project_ref names project st)))
       = map po_frames (objects st) ++ replicate k [].
Proof.
  induction names as [|name rest IH]; intros project st.
  - exists 0. split; [lia|]. simpl. now rewrite app_nil_r.
  - rewrite project_ref_cons.
    destruct (od_get name (projects_at project st)) as [child|].
    + destruct (IH (Some child) st) as (k & Hk & E).
      exists k. split; [simpl; lia|exact E].
    + destruct (IH (Some (length (objects st))) (add_child project name st))
        as (k & Hk & E).
      exists (S k). split; [simpl; lia|].
      rewrite E, frames_add_child, <- app_assoc. reflexivity.
Qed.

Lemma project_ref_is_object (names : list string) project st :
  names <> [] -> fst (project_ref names project st) <> None.
Proof.
  revert project st. induction names as [|name rest IH]; intros project st Hne;
    [congruence|].
  rewrite project_ref_cons.
  destruct (od_get name (projects_at project st)) as [child|];
    (destruct rest as [|x rest]; [discriminate|apply IH; discriminate]).
Qed.

(** X14: on the objects, [project] ends on the address of an object;
    it loses no object and no binding, gives every new address an object,
    allocates at most one object for each name of the path, each without
    frames, and changes the frames of no object. *)
Theorem project_ref_only_adds (name : string) (st : forest) :
  closed st ->
  let run := project_ref (split slash name) None st in
  (exists a, fst run = Some a /\ a < length (objects (snd run)))
  /\ closed (snd run)
  /\ grows st (snd run)
  /\ (exists k,
        k <= length (split slash name)
        /\ map po_frames (objects (snd run))
           = map po_frames (objects st) ++ replicate k []).
Proof.
  intros Hc run.
  destruct (project_ref_grows (split slash name) None st Hc I) as (Hg & Hc' & Hv).
  fold run in Hg, Hc', Hv.
  split; [|split; [exact Hc'|split; [exact Hg|apply project_ref_frames]]].
  pose proof (project_ref_is_object (split slash name) None st (split_not_nil _ _)) as Hr.
  fold run in Hr. destruct (fst run) as [a|]; [|congruence].
  exists a. split; [reflexivity|exact Hv].
Qed.

Lemma busy_forest_closed : closed busy_forest.
Proof.
  intros [[|[|[|a]]]|] name a' Hget; vm_compute in Hget |- *;
    repeat match type of Hget with
           | (if ?b then _ else _) = _ => destruct b
           end;
    inversion Hget; subst; lia.
Qed.

Lemma project_ref_only_adds_witness :
  exists a,
    fst (project_ref ["work"; "doc"; "api"] None busy_forest) = Some a
    /\ a < length (objects (snd (project_ref ["work"; "doc"; "api"] None busy_forest))).
Proof.
  exact (proj1 (project_ref_only_adds "work/doc/api" busy_forest busy_forest_closed)).
Defined.
